(** * hlds-master: registry, liveness sweep and status-query codec

    A shallow embedding of [main.go] (package [main]) and the properties
    of its server registry, its periodic sweep and its A2S_INFO response
    parser.

    Conventions of the embedding.
    - [[]byte] is [list byte]; a Go [string] (an immutable byte sequence)
      is a [string], whose characters are 8-bit.
    - Go's [int] values that occur here (player counts, lengths) are [Z];
      none of them leaves the range of a machine word.
    - [time.Time] values all come from [time.Now()], hence carry a
      monotonic clock reading; [After] and [Sub] compare these readings.
      A time is the reading in nanoseconds, a [Z].
    - [manager.servers] is a [map[string]*ServerInfo]: a finite map from
      addresses to pointers, next to a heap of [ServerInfo] objects.
    - A critical section under [manager.mu.Lock()] is one function on
      the state; the one of [handleWeb], under [RLock], is also given
      step by step, next to the steps of the writers. *)

From Stdlib Require Import ZArith Strings.Byte.
From stdpp Require Import base option list sorting gmap strings.

Local Open Scope Z_scope.

#[global] Instance byte_eq_dec : EqDecision byte := Byte.byte_eq_dec.

(** ** The byte reader: [bytes.Buffer] and run-time panics *)

Module Buffer.

(** A computation either completes or panics (index or slice bound out
    of range). *)
Inductive outcome (A : Type) : Type :=
| Done (a : A)
| Panicked.
Arguments Done {A} a.
Arguments Panicked {A}.

(** The unread portion of a [*bytes.Buffer] is threaded through the
    calls that consume it. *)
Definition Reader (A : Type) : Type := list byte → outcome (A * list byte).

Definition ret {A} (a : A) : Reader A := λ b, Done (a, b).

Definition bind {A B} (m : Reader A) (k : A → Reader B) : Reader B :=
  λ b, match m b with
       | Done (a, b') => k a b'
       | Panicked => Panicked
       end.

Definition lift {A} (o : outcome A) : Reader A :=
  λ b, match o with Done a => Done (a, b) | Panicked => Panicked end.

(** [io.EOF], the only error [ReadString] can report on a buffer. *)
Inductive error := EOF.

(** [b.Next(n)]: the next [n] bytes, or the entire buffer when fewer
    than [n] are left. *)
Definition Next (n : nat) : Reader (list byte) :=
  λ b, Done (take n b, drop n b).

(** [b.Len()]: the number of unread bytes. *)
Definition Len : Reader Z := λ b, Done (Z.of_nat (length b), b).

(** [readSlice]: the bytes up to and including the first [delim], the
    bytes after it, and whether [delim] was found. *)
Fixpoint readSlice (delim : byte) (b : list byte) : list byte * list byte * bool :=
  match b with
  | [] => ([], [], false)
  | x :: b' =>
      if Byte.eqb x delim then ([x], b', true)
      else let '(l, r, found) := readSlice delim b' in (x :: l, r, found)
  end.

(** [b.ReadString(delim)]: the data up to and including the delimiter;
    without a delimiter, all the data that is left and [io.EOF]. *)
Definition ReadString (delim : byte) : Reader (string * option error) :=
  λ b, let '(l, r, found) := readSlice delim b in
       Done (String.string_of_list_byte l, if found then None else Some EOF, r).

(** [s[:hi]] on a string; panics when [hi] is out of range. *)
Definition slice_to (s : string) (hi : Z) : outcome string :=
  if bool_decide (0 ≤ hi ≤ Z.of_nat (String.length s))
  then Done (String.substring 0 (Z.to_nat hi) s)
  else Panicked.

(** [s[i]] on a byte slice; panics when [i] is out of range. *)
Definition index (s : list byte) (i : nat) : outcome byte :=
  match s !! i with
  | Some x => Done x
  | None => Panicked
  end.

End Buffer.

Import Buffer.

Declare Scope reader_scope.
Delimit Scope reader_scope with reader.
Notation "x <- m ;; k" := (bind m (λ x, k))
  (at level 100, m at next level, right associativity) : reader_scope.
Notation "m ;;; k" := (bind m (λ _, k))
  (at level 100, right associativity) : reader_scope.

(** ** The status-query codec (the body of [queryServerDetails]) *)

(** The request: [0xFF 0xFF 0xFF 0xFF], ['T'], the payload, a zero. *)
Definition query : list byte :=
  [ xff; xff; xff; xff; x54; x53; x6f; x75; x72; x63; x65; x20; x45;
    x6e; x67; x69; x6e; x65; x20; x51; x75; x65; x72; x79; x00 ].

(** The closure [readString]: the error of [ReadString] is dropped and
    the last byte of what was read is cut off. *)
Definition readString : Reader string :=
  (r <- ReadString x00 ;;
   let str := r.1 in
   if bool_decide (Z.of_nat (String.length str) > 0)
   then lift (slice_to str (Z.of_nat (String.length str) - 1))
   else ret String.EmptyString)%reader.

(** The four values a status query writes back. *)
Record Status : Type := mkStatus {
  st_name : string;
  st_mapName : string;
  st_players : Z;
  st_maxPlayers : Z
}.

(** [int(b)] for a byte [b]. *)
Definition int_of_byte (b : byte) : Z := Z.of_N (Byte.to_N b).

(** Lines 223-235: parse the buffer; [None] is the early [return] of the
    length check. *)
Definition parse : Reader (option Status) :=
  (Next 1 ;;;
   name <- readString ;;
   mapName <- readString ;;
   readString ;;;
   readString ;;;
   Next 2 ;;;
   len <- Len ;;
   if bool_decide (len < 2) then ret None
   else
     p <- Next 1 ;;
     players <- lift (index p 0) ;;
     q <- Next 1 ;;
     maxPlayers <- lift (index q 0) ;;
     ret (Some (mkStatus name mapName (int_of_byte players) (int_of_byte maxPlayers))))%reader.

(** What the network does to one query. *)
Inductive Exchange : Type :=
| DialFailed
| ReadFailed
| Datagram (payload : list byte).

(** [resp := make([]byte, 1400); n, err := conn.Read(resp)]: the first
    bytes of [resp] are the datagram (cut at 1400), the rest stay zero. *)
Definition respSize : nat := 1400.

Definition conn_Read (payload : list byte) : Z * list byte :=
  let got := take respSize payload in
  (Z.of_nat (length got), got ++ replicate (respSize - length got) x00).

(** How a query ends before the write-back. *)
Inductive Decoded : Type :=
| Abandoned              (* a [return] before the write-back *)
| Recovered              (* a panic caught by the deferred [recover] *)
| Parsed (s : Status).

(** [queryServerDetails] up to line 235. The buffer is [resp[5:]], the
    whole receive array after the header, not [resp[5:n]]. *)
Definition decode (x : Exchange) : Decoded :=
  match x with
  | DialFailed => Abandoned
  | ReadFailed => Abandoned
  | Datagram payload =>
      let '(n, resp) := conn_Read payload in
      if bool_decide (n < 5) then Abandoned
      else match parse (drop 5 resp) with
           | Done (Some s, _) => Parsed s
           | Done (None, _) => Abandoned
           | Panicked => Recovered
           end
  end.

(** ** The registry ([ServerManager]) *)

Record ServerInfo : Type := mkServerInfo {
  Address : string;
  LastSeen : Z;
  Name : string;
  Map : string;
  Players : Z;
  MaxPlayers : Z
}.

(** A [*ServerInfo]. *)
Definition ptr : Type := positive.

(** [manager.servers] and the objects its pointers refer to. *)
Record State : Type := mkState {
  servers : gmap string ptr;
  heap : gmap ptr ServerInfo
}.

(** [manager] as the program starts. *)
Definition init : State := mkState ∅ ∅.

(** The zero value of [ServerInfo]. *)
Definition zeroInfo : ServerInfo := mkServerInfo "" 0 "" "" 0 0.

(** [*s]. Every pointer the program keeps refers to an allocated object
    (see [wf] below); on any other pointer [deref] is the zero value. *)
Definition deref (h : gmap ptr ServerInfo) (s : ptr) : ServerInfo :=
  default zeroInfo (h !! s).

(** The record the registry holds for an address, if any. *)
Definition record (st : State) (address : string) : option ServerInfo :=
  s ← servers st !! address; heap st !! s.

Definition set_LastSeen (t : Z) (r : ServerInfo) : ServerInfo :=
  mkServerInfo (Address r) t (Name r) (Map r) (Players r) (MaxPlayers r).

Definition set_Status (f : Status) (r : ServerInfo) : ServerInfo :=
  mkServerInfo (Address r) (LastSeen r)
    (st_name f) (st_mapName f) (st_players f) (st_maxPlayers f).

(** [&ServerInfo{...}]: a location that is not in use. *)
Definition alloc (h : gmap ptr ServerInfo) : ptr := fresh (dom h).

(** [registerServer(address)], with [now] the value of [time.Now()]. *)
Definition registerServer (now : Z) (address : string) (st : State) : State :=
  match servers st !! address with
  | Some s => mkState (servers st) (alter (set_LastSeen now) s (heap st))
  | None =>
      let s := alloc (heap st) in
      mkState (<[address := s]> (servers st))
              (<[s := mkServerInfo address now "Scanning..." "" 0 0]> (heap st))
  end.

(** [delete(manager.servers, addr)]. *)
Definition delete_server (addr : string) (st : State) : State :=
  mkState (delete addr (servers st)) (heap st).

(** Lines 237-245 of [queryServerDetails]: the write-back. *)
Definition writeBack (address : string) (f : Status) (st : State) : State :=
  match servers st !! address with
  | Some target => mkState (servers st) (alter (set_Status f) target (heap st))
  | None => st
  end.

(** [queryServerDetails(address)] on the exchange [x] with the server. *)
Definition queryServerDetails (address : string) (x : Exchange) (st : State) : State :=
  match decode x with
  | Parsed f => writeBack address f st
  | Abandoned | Recovered => st
  end.

(** *** Ranging over the map

    [for k, v := range m] yields every entry once, in an order that the
    language leaves open: any permutation of the entries is possible. *)
Definition range_order (st : State) (kvs : list (string * ptr)) : Prop :=
  kvs ≡ₚ map_to_list (servers st).

(** *** [handleWeb] *)

(** [t.After(u)]. *)
Definition After (t u : Z) : bool := bool_decide (t > u).

(** [sort.Slice]: an unstable comparison sort; on ties any order may come
    out. Insertion by [less] stands for it. *)
Fixpoint sort_insert {A} (less : A → A → bool) (x : A) (l : list A) : list A :=
  match l with
  | [] => [x]
  | y :: l' => if less x y then x :: l else y :: sort_insert less x l'
  end.

Definition sort_Slice {A} (less : A → A → bool) (l : list A) : list A :=
  foldr (sort_insert less) [] l.

(** The value handed to the template. *)
Record WebData : Type := mkWebData {
  Count : Z;
  Servers : list ptr
}.

(** [handleWeb] up to the template: [kvs] is the order in which the map
    is ranged over. *)
Definition handleWeb (kvs : list (string * ptr)) (st : State) : WebData :=
  let list := kvs.*2 in
  let list :=
    sort_Slice (λ i j, After (LastSeen (deref (heap st) i))
                             (LastSeen (deref (heap st) j))) list in
  mkWebData (Z.of_nat (length list)) list.

(** What the template reads through the pointers of [Servers] in a
    state [st]. *)
Definition rows (st : State) (d : WebData) : list ServerInfo :=
  deref (heap st) <$> Servers d.

(** *** One cycle of [startCleanerAndQuery] *)

Definition Minute : Z := 60 * 1000000000.
Definition maxDuration : Z := 2 ^ 63 - 1.
Definition minDuration : Z := - 2 ^ 63.

(** [t.Sub(u)]: the difference as a [Duration], saturated at the ends of
    the range of an [int64]. *)
Definition Sub (t u : Z) : Z := minDuration `max` ((t - u) `min` maxDuration).

(** [time.Since(u)] when the clock reads [now]. *)
Definition Since (now u : Z) : Z := Sub now u.

(** The body of the loop at lines 165-173 for the entry [(addr, s)]; the
    clock is read anew for every entry, [now addr] is its reading for
    this one. [threshold] is [5*time.Minute] in the program. *)
Definition sweep_entry (threshold : Z) (now : string → Z)
    (acc : State * list string) (kv : string * ptr) : State * list string :=
  let '(st, checkList) := acc in
  let '(addr, s) := kv in
  if bool_decide (Since (now addr) (LastSeen (deref (heap st) s)) > threshold)
  then (delete_server addr st, checkList)
  else (st, checkList ++ [addr]).

Definition sweep (threshold : Z) (now : string → Z)
    (kvs : list (string * ptr)) (st : State) : State * list string :=
  foldl (sweep_entry threshold now) (st, []) kvs.

(** The test of line 167 on the entry [kv], reading through the heap [h]. *)
Definition stale (threshold : Z) (now : string → Z)
    (h : gmap ptr ServerInfo) (kv : string * ptr) : Prop :=
  Since (now kv.1) (LastSeen (deref h kv.2)) > threshold.

#[global] Instance stale_dec threshold now h kv :
  Decision (stale threshold now h kv).
Proof. unfold stale. apply _. Defined.

Definition staleThreshold : Z := 5 * Minute.

(** Lines 161-174: the critical section of one tick; the result is the
    registry and [checkList]. *)
Definition startCleanerAndQuery_tick (now : string → Z)
    (kvs : list (string * ptr)) (st : State) : State * list string :=
  sweep staleThreshold now kvs st.

(** *** The registry as a transition system *)

(** Every pointer of the map refers to an object whose [Address] is its
    key. *)
Definition wf (st : State) : Prop :=
  ∀ a s, servers st !! a = Some s →
         ∃ r, heap st !! s = Some r ∧ Address r = a.

Inductive Event : Type :=
| Heartbeat (addr : string)
| Tick (kvs : list (string * ptr)) (now : string → Z)
| Query (addr : string) (x : Exchange).

(** A system state is a registry and the reading of the monotonic clock;
    the clock may advance with every step. *)
Inductive step : State * Z → Event → State * Z → Prop :=
| step_heartbeat st c c' addr :
    c ≤ c' →
    step (st, c) (Heartbeat addr) (registerServer c' addr st, c')
| step_tick st c c' kvs now :
    c ≤ c' → range_order st kvs → (∀ a, c ≤ now a ≤ c') →
    step (st, c) (Tick kvs now) ((startCleanerAndQuery_tick now kvs st).1, c')
| step_query st c c' addr x :
    c ≤ c' →
    step (st, c) (Query addr x) (queryServerDetails addr x st, c').

Inductive reachable : State * Z → Prop :=
| reach_init c : reachable (init, c)
| reach_step σ e σ' : reachable σ → step σ e σ' → reachable σ'.

(** ** Test vectors *)

Definition alpha_response : list byte :=
  [xff; xff; xff; xff; x49; x02]
  ++ String.list_byte_of_string "Alpha" ++ [x00]
  ++ String.list_byte_of_string "de_dust2" ++ [x00]
  ++ String.list_byte_of_string "cstrike" ++ [x00]
  ++ String.list_byte_of_string "Counter-Strike" ++ [x00]
  ++ [x00; x00; x10; x20].

(** A response cut off inside the server name: header, protocol version,
    then ["Al"] with no terminator. *)
Definition cut_response : list byte :=
  [xff; xff; xff; xff; x49; x02] ++ String.list_byte_of_string "Al".

(** A response is cut off inside a string when it has its header and
    fewer than four terminators follow the protocol-version byte. *)
Definition truncated_mid_string (payload : list byte) : Prop :=
  (5 ≤ length payload)%nat ∧
  (length (filter (λ x, x = x00) (drop 6 payload)) < 4)%nat.

(** A registry with the single server ["a"], last seen at time 1, and
    the same with a second server ["b"], last seen at time 5. *)
Definition st_a : State := registerServer 1 "a" init.
Definition st_ab : State := registerServer 5 "b" st_a.

(** A list is a copy, free of aliases of the registry, when none of its
    entries is a pointer that the registry holds. *)
Definition no_alias (st : State) (d : WebData) : Prop :=
  ∀ a s, servers st !! a = Some s → s ∉ Servers d.

(** *** [handleWeb] and [manager.mu]

    [handleWeb] takes the read lock on entry (line 133) and releases it,
    by [defer], when it returns. In between it ranges over the map,
    sorts the list, and executes the template, which reads the fields
    of every record through the pointers of the list. The place a
    request has reached: *)
Inductive WebPC : Type :=
| WebIdle                        (* before [RLock] *)
| WebLocked                      (* [RLock] taken *)
| WebListed (list : list ptr)    (* after the loop of lines 137-139 *)
| WebReading (data : WebData) (todo : list ptr) (out : list ServerInfo)
                                 (* in [tmpl.Execute]; [todo] is still to be read *)
| WebDone (data : WebData) (out : list ServerInfo).
                                 (* returned, [RUnlock] done *)

Definition holds_RLock (pc : WebPC) : bool :=
  match pc with
  | WebIdle | WebDone _ _ => false
  | WebLocked | WebListed _ | WebReading _ _ _ => true
  end.

(** The registry, the clock, the number of other requests that hold the
    read lock, and the request that is followed. *)
Record Sys : Type := mkSys {
  sys_reg : State;
  sys_clock : Z;
  sys_readers : nat;
  sys_web : WebPC
}.

(** The steps of the whole program. A heartbeat, a sweep and a
    write-back take [manager.mu.Lock()], which is granted only when no
    reader holds the lock; they are the steps of [step]. The steps of
    the request are those of [handleWeb]. *)
Inductive sys_step : Sys → Sys → Prop :=
| sys_writer st c e st' c' pc :
    step (st, c) e (st', c') → holds_RLock pc = false →
    sys_step (mkSys st c 0 pc) (mkSys st' c' 0 pc)
| sys_other_RLock st c n pc :
    sys_step (mkSys st c n pc) (mkSys st c (S n) pc)
| sys_other_RUnlock st c n pc :
    sys_step (mkSys st c (S n) pc) (mkSys st c n pc)
| sys_web_RLock st c n :
    sys_step (mkSys st c n WebIdle) (mkSys st c n WebLocked)
| sys_web_range st c n kvs :
    range_order st kvs →
    sys_step (mkSys st c n WebLocked) (mkSys st c n (WebListed kvs.*2))
| sys_web_sort st c n list :
    let sorted :=
      sort_Slice (λ i j, After (LastSeen (deref (heap st) i))
                               (LastSeen (deref (heap st) j))) list in
    sys_step (mkSys st c n (WebListed list))
             (mkSys st c n (WebReading (mkWebData (Z.of_nat (length sorted)) sorted)
                                       sorted []))
| sys_web_read st c n d s todo out :
    sys_step (mkSys st c n (WebReading d (s :: todo) out))
             (mkSys st c n (WebReading d todo (out ++ [deref (heap st) s])))
| sys_web_RUnlock st c n d out :
    sys_step (mkSys st c n (WebReading d [] out))
             (mkSys st c n (WebDone d out)).

(** What holds of a request that took the read lock when the registry
    was [st]. *)
Definition web_inv (st : State) (σ : Sys) : Prop :=
  match sys_web σ with
  | WebIdle => False
  | WebLocked => sys_reg σ = st
  | WebListed list =>
      sys_reg σ = st ∧ ∃ kvs, range_order st kvs ∧ list = kvs.*2
  | WebReading d todo out =>
      sys_reg σ = st
      ∧ ∃ kvs, range_order st kvs ∧ d = handleWeb kvs st
               ∧ out ++ (deref (heap st) <$> todo) = rows st d
  | WebDone d out =>
      ∃ kvs, range_order st kvs ∧ d = handleWeb kvs st ∧ out = rows st d
  end.

(** A buffer that ends in [k] zero bytes. *)
Definition padded (k : nat) (b : list byte) : Prop :=
  ∃ d, b = d ++ replicate k x00.

(** The requests a query puts on the wire. *)
Definition requests_sent (x : Exchange) : list (list byte) :=
  match x with
  | DialFailed => []
  | ReadFailed | Datagram _ => [query]
  end.

(** ** The heartbeat loop ([startUDPServer]) *)

(** What [conn.ReadFromUDP(buf)] returns: an error, or a datagram and
    the address it came from ([remoteAddr.String()]). *)
Inductive UDPRead : Type :=
| ReadError
| Packet (payload : list byte) (remoteAddr : string).

(** [buf := make([]byte, 1024)]. *)
Definition bufSize : nat := 1024.

(** One turn of the loop at lines 102-111: [n] is the number of bytes
    that went into [buf]; [now] is the clock reading inside
    [registerServer]. *)
Definition startUDPServer_turn (now : Z) (rd : UDPRead) (st : State) : State :=
  match rd with
  | ReadError => st
  | Packet payload remoteAddr =>
      let n := Z.of_nat (length (take bufSize payload)) in
      if bool_decide (n > 0) then registerServer now remoteAddr st else st
  end.

(** The turns the loop has made so far, each with its clock reading. *)
Definition startUDPServer_loop (reads : list (Z * UDPRead)) (st : State) : State :=
  foldl (λ st tr, startUDPServer_turn tr.1 tr.2 st) st reads.

(** [net.ListenUDP]: a failure ends the process ([log.Fatalf]). *)
Inductive Listen : Type :=
| ListenFailed
| Listening.

(** [startUDPServer]: [None] is the exit of the process. *)
Definition startUDPServer (l : Listen) (reads : list (Z * UDPRead))
    (st : State) : option State :=
  match l with
  | ListenFailed => None
  | Listening => Some (startUDPServer_loop reads st)
  end.

(** The addresses that sent a datagram with at least one byte. *)
Definition senders (reads : list (Z * UDPRead)) : list string :=
  tr ← reads;
  match tr.2 with
  | Packet (_ :: _) remoteAddr => [remoteAddr]
  | Packet [] _ | ReadError => []
  end.

(** ** The queries of one cycle

    Lines 177-181 start one [queryServerDetails] per address of
    [checkList]; each one ends, at its own time, with its write-back
    under the lock. [finished] lists the addresses in the order in which
    their queries end, [answers] is what each server did. *)
Definition runQueries (answers : string → Exchange) (finished : list string)
    (st : State) : State :=
  foldl (λ st addr, queryServerDetails addr (answers addr) st) st finished.

(** The fields of a record hold what a parse can produce or the
    placeholders: no zero byte in the two strings, counts that fit in a
    byte. *)
Definition plain (r : ServerInfo) : Prop :=
  (x00 ∉ String.list_byte_of_string (Name r))
  ∧ (x00 ∉ String.list_byte_of_string (Map r))
  ∧ 0 ≤ Players r ≤ 255
  ∧ 0 ≤ MaxPlayers r ≤ 255.

(** * Properties *)

(** ** Strings and slices *)

Section strings.

Lemma length_string_of_list_byte (l : list byte) :
  String.length (String.string_of_list_byte l) = length l.
Proof. induction l as [|x l IH]; simpl; [done | by rewrite <- IH]. Qed.

Lemma substring_string_of_list_byte (n : nat) (l : list byte) :
  String.substring 0 n (String.string_of_list_byte l)
  = String.string_of_list_byte (take n l).
Proof.
  revert n. induction l as [|x l IH]; intros [|n]; try done.
  change (String.string_of_list_byte (x :: l))
    with (String (Ascii.ascii_of_byte x) (String.string_of_list_byte l)).
  change (String.string_of_list_byte (take (S n) (x :: l)))
    with (String (Ascii.ascii_of_byte x) (String.string_of_list_byte (take n l))).
  cbn [String.substring]. f_equal. apply IH.
Qed.

Lemma take_pred_length {A} (l : list A) :
  take (length l - 1) l = removelast l.
Proof.
  induction l as [|x l IH]; [done|]. destruct l as [|y l]; [done|].
  change (removelast (x :: y :: l)) with (x :: removelast (y :: l)).
  rewrite <- IH. simpl. by rewrite Nat.sub_0_r.
Qed.

Lemma slice_to_in_range (s : string) (hi : Z) :
  0 ≤ hi ≤ Z.of_nat (String.length s) →
  slice_to s hi = Done (String.substring 0 (Z.to_nat hi) s).
Proof. intros H. unfold slice_to. by rewrite bool_decide_eq_true_2. Qed.

End strings.

(** ** The reader *)

Section reader.

Lemma readSlice_app (delim : byte) (b : list byte) :
  (readSlice delim b).1.1 ++ (readSlice delim b).1.2 = b.
Proof.
  induction b as [|x b IH]; simpl; [done|].
  destruct (Byte.eqb x delim); simpl; [done|].
  destruct (readSlice delim b) as [[l r] found]. simpl in *. by f_equal.
Qed.

Lemma readSlice_no_delim (delim : byte) (b : list byte) :
  delim ∉ b → readSlice delim b = (b, [], false).
Proof.
  induction b as [|x b IH]; intros Hnot; simpl; [done|].
  apply not_elem_of_cons in Hnot as [Hne Hnot].
  destruct (Byte.eqb x delim) eqn:E.
  - apply Byte.byte_dec_bl in E. congruence.
  - by rewrite IH.
Qed.

(** The closure [readString] completes on every buffer: its slice is
    guarded by [len(str) > 0]. *)
Lemma readString_total (b : list byte) :
  ∃ s b', readString b = Done (s, b') ∧ (length b' ≤ length b)%nat.
Proof.
  unfold readString, bind, ReadString.
  pose proof (readSlice_app x00 b) as Happ.
  destruct (readSlice x00 b) as [[l r] found]; simpl in *.
  assert (length r ≤ length b)%nat as Hlen.
  { rewrite <- Happ, length_app. lia. }
  case_bool_decide as Hpos.
  - unfold lift. rewrite slice_to_in_range by lia. eauto.
  - unfold ret. eauto.
Qed.

(** Neither does the whole parse: the two index expressions come after
    the check that two bytes are left. *)
Lemma parse_total (b : list byte) : ∃ r b', parse b = Done (r, b').
Proof.
  unfold parse, bind, Next, Len.
  destruct (readString_total (drop 1 b)) as (name & b1 & -> & _).
  destruct (readString_total b1) as (mapName & b2 & -> & _).
  destruct (readString_total b2) as (folder & b3 & -> & _).
  destruct (readString_total b3) as (game & b4 & -> & _).
  case_bool_decide as Hlen; [unfold ret; eauto|].
  destruct (drop 2 b4) as [|p [|q b5]]; simpl in Hlen; try lia.
  simpl. unfold ret. eauto.
Qed.

Lemma decode_short (payload : list byte) :
  (length payload < 5)%nat → decode (Datagram payload) = Abandoned.
Proof.
  intros Hlen. unfold decode, conn_Read.
  rewrite bool_decide_eq_true_2; [done|].
  rewrite length_take. lia.
Qed.

(** *** Parsing into the padding of the receive array *)

Lemma padded_le (k k' : nat) (b : list byte) :
  (k' ≤ k)%nat → padded k b → padded k' b.
Proof.
  intros Hle [d ->]. exists (d ++ replicate (k - k') x00).
  rewrite <- app_assoc, <- replicate_add. do 2 f_equal. lia.
Qed.

Lemma padded_length (k : nat) (b : list byte) :
  padded k b → (k ≤ length b)%nat.
Proof. intros [d ->]. rewrite length_app, length_replicate. lia. Qed.

Lemma padded_drop (m k : nat) (b : list byte) :
  padded k b → padded (k - m) (drop m b).
Proof.
  intros [d ->]. rewrite drop_app, drop_replicate.
  apply (padded_le (k - (m - length d))); [lia|]. by eexists.
Qed.

Lemma padded_readSlice (k : nat) (d : list byte) :
  ∃ l r, readSlice x00 (d ++ replicate (S k) x00) = (l, r, true) ∧ padded k r.
Proof.
  induction d as [|x d (l & r & IH & Hr)].
  - exists [x00], (replicate k x00). split; [done|]. by exists [].
  - rewrite <- app_comm_cons. cbn [readSlice]. destruct (Byte.eqb x x00).
    + do 2 eexists. split; [done|].
      apply (padded_le (S k)); [lia|]. by eexists.
    + rewrite IH. eauto.
Qed.

Lemma readString_rest (b : list byte) :
  ∃ s, readString b = Done (s, (readSlice x00 b).1.2).
Proof.
  unfold readString, bind, ReadString.
  destruct (readSlice x00 b) as [[l r] found]; simpl.
  case_bool_decide as Hpos.
  - unfold lift. rewrite slice_to_in_range by lia. eauto.
  - unfold ret. eauto.
Qed.

(** With a zero byte in the padding, [readString] always finds a
    terminator, and uses up at most one byte of the padding. *)
Lemma padded_readString (k : nat) (b : list byte) :
  padded (S k) b → ∃ s b', readString b = Done (s, b') ∧ padded k b'.
Proof.
  intros [d ->]. destruct (readString_rest (d ++ replicate (S k) x00)) as [s ->].
  destruct (padded_readSlice k d) as (l & r & -> & Hr). eauto.
Qed.

(** Nine bytes of padding are enough for the parse to succeed, whatever
    comes before them. *)
Lemma parse_padded (b : list byte) :
  padded 9 b → ∃ f b', parse b = Done (Some f, b').
Proof.
  intros Hb. unfold parse, bind, Next, Len.
  apply (padded_drop 1) in Hb. simpl in Hb.
  destruct (padded_readString _ _ Hb) as (name & b1 & -> & Hb1).
  destruct (padded_readString _ _ Hb1) as (mapName & b2 & -> & Hb2).
  destruct (padded_readString _ _ Hb2) as (folder & b3 & -> & Hb3).
  destruct (padded_readString _ _ Hb3) as (game & b4 & -> & Hb4).
  apply (padded_drop 2), padded_length in Hb4. simpl in Hb4.
  rewrite bool_decide_eq_false_2 by lia.
  destruct (drop 2 b4) as [|p [|q b5]]; simpl in Hb4; try lia.
  simpl. unfold ret. eauto.
Qed.

(** X1. Every datagram of 5 to 1391 bytes is decoded with success, cut
    off or not: the zero bytes in the rest of the 1400-byte receive
    array supply what is missing. *)
Lemma decode_padded (payload : list byte) :
  (5 ≤ length payload ≤ 1391)%nat → ∃ f, decode (Datagram payload) = Parsed f.
Proof.
  intros Hlen. unfold decode, conn_Read.
  rewrite take_ge by (unfold respSize; lia).
  rewrite bool_decide_eq_false_2 by lia.
  rewrite drop_app_le by lia.
  destruct (parse_padded (drop 5 payload ++ replicate (respSize - length payload) x00))
    as (f & b' & ->); [|eauto].
  apply (padded_le (respSize - length payload)); [unfold respSize; lia|].
  by eexists.
Qed.

(** *** Parsing a complete response *)

Lemma readSlice_delim (s r : list byte) :
  x00 ∉ s → readSlice x00 (s ++ x00 :: r) = (s ++ [x00], r, true).
Proof.
  induction s as [|x s IH]; intros Hnot; [done|].
  apply not_elem_of_cons in Hnot as [Hne Hnot].
  rewrite <- !app_comm_cons. cbn [readSlice].
  destruct (Byte.eqb x x00) eqn:E.
  - apply Byte.byte_dec_bl in E. congruence.
  - by rewrite IH.
Qed.

(** [readString] on a terminated string: the string without its
    terminator, and the buffer after the terminator. *)
Lemma readString_terminated (s r : list byte) :
  x00 ∉ s →
  readString (s ++ x00 :: r) = Done (String.string_of_list_byte s, r).
Proof.
  intros Hnot. unfold readString, bind, ReadString.
  rewrite readSlice_delim by done. cbn [fst].
  rewrite length_string_of_list_byte, length_app.
  change (length [x00]) with 1%nat.
  rewrite bool_decide_eq_true_2 by lia.
  unfold lift. rewrite slice_to_in_range.
  - rewrite substring_string_of_list_byte.
    replace (Z.to_nat (Z.of_nat (length s + 1) - 1)) with (length s) by lia.
    by rewrite take_app_length.
  - rewrite length_string_of_list_byte, length_app. simpl. lia.
Qed.

Lemma parse_well_formed (ver i1 i2 p m : byte) (name map folder game rest : list byte) :
  x00 ∉ name → x00 ∉ map → x00 ∉ folder → x00 ∉ game →
  parse (ver :: name ++ x00 :: map ++ x00 :: folder ++ x00 :: game ++ x00
             :: i1 :: i2 :: p :: m :: rest)
  = Done (Some (mkStatus (String.string_of_list_byte name)
                         (String.string_of_list_byte map)
                         (int_of_byte p) (int_of_byte m)), rest).
Proof.
  intros Hname Hmap Hfolder Hgame. unfold parse, bind, Next, Len.
  cbn [skipn]. rewrite drop_0. rewrite !readString_terminated by done.
  change (drop 2 (i1 :: i2 :: p :: m :: rest)) with (p :: m :: rest).
  cbn [length]. rewrite bool_decide_eq_false_2 by lia. done.
Qed.

(** A complete response of at most 1400 bytes decodes to its name, its
    map and its two counts; what follows the counts is ignored. *)
Lemma decode_well_formed (hdr name map folder game rest : list byte)
    (ver i1 i2 p m : byte) :
  let payload :=
    hdr ++ ver :: name ++ x00 :: map ++ x00 :: folder ++ x00 :: game ++ x00
        :: i1 :: i2 :: p :: m :: rest in
  length hdr = 5%nat → (length payload ≤ 1400)%nat →
  x00 ∉ name → x00 ∉ map → x00 ∉ folder → x00 ∉ game →
  decode (Datagram payload)
  = Parsed (mkStatus (String.string_of_list_byte name)
                     (String.string_of_list_byte map)
                     (int_of_byte p) (int_of_byte m)).
Proof.
  intros payload Hhdr Hlen Hname Hmap Hfolder Hgame. unfold decode, conn_Read.
  rewrite take_ge by (unfold respSize; lia).
  assert (5 ≤ length payload)%nat by (unfold payload; rewrite length_app; lia).
  rewrite bool_decide_eq_false_2 by lia.
  generalize (replicate (respSize - length payload) x00). intros pad.
  unfold payload. rewrite <- app_assoc, drop_app_length' by done.
  rewrite <- app_comm_cons.
  repeat (rewrite <- app_assoc, <- app_comm_cons).
  rewrite <- !app_comm_cons.
  by rewrite parse_well_formed.
Qed.

End reader.

(** ** The codec *)

(** C10. When no zero byte is left in the buffer, [readString] reports
    no failure: it returns all the remaining bytes but the last one, and
    leaves the buffer empty; on an empty buffer it returns the empty
    string. *)
Theorem readString_without_terminator :
  (∀ b : list byte,
     x00 ∉ b →
     readString b = Done (String.string_of_list_byte (removelast b), []))
  ∧ readString [] = Done (String.EmptyString, []).
Proof.
  split; [|done].
  intros b Hnot. unfold readString, bind, ReadString.
  rewrite readSlice_no_delim by done. simpl.
  rewrite length_string_of_list_byte.
  case_bool_decide as Hpos.
  - unfold lift. rewrite slice_to_in_range.
    + rewrite substring_string_of_list_byte.
      replace (Z.to_nat (Z.of_nat (length b) - 1)) with (length b - 1)%nat by lia.
      by rewrite take_pred_length.
    + rewrite length_string_of_list_byte. lia.
  - destruct b; [done | simpl in Hpos; lia].
Qed.

Lemma readString_without_terminator_witness :
  (x00 ∉ [x41; x42; x43])
  ∧ readString [x41; x42; x43] = Done ("AB"%string, []).
Proof.
  assert (x00 ∉ [x41; x42; x43]) as Hnot.
  { rewrite !not_elem_of_cons. repeat split; try discriminate. apply not_elem_of_nil. }
  split; [exact Hnot|].
  exact (proj1 readString_without_terminator [x41; x42; x43] Hnot).
Defined.

(** C9. The request is the four bytes [0xFF], the byte ['T'], the text
    ["Source Engine Query"] and one zero byte; whenever a query sends
    anything, it sends exactly that. *)
Theorem query_bytes :
  query = [xff; xff; xff; xff]
          ++ String.list_byte_of_string "T"
          ++ String.list_byte_of_string "Source Engine Query"
          ++ [x00]
  ∧ ∀ x, requests_sent x = [] ∨ requests_sent x = [query].
Proof. split; [reflexivity|]. intros []; simpl; auto. Qed.

(** C7. The well-formed response with name ["Alpha"], map ["de_dust2"],
    folder ["cstrike"], game ["Counter-Strike"], application id [00 00]
    and the bytes [10 20] decodes to name ["Alpha"], map ["de_dust2"],
    16 players of at most 32. *)
Theorem decode_alpha :
  decode (Datagram alpha_response) = Parsed (mkStatus "Alpha" "de_dust2" 16 32).
Proof. vm_compute. reflexivity. Qed.

(** C8. The decoder cannot fault: on every buffer the parse completes
    without a panic, so every exchange ends either with decoded values
    or with the query silently given up. *)
Theorem decode_never_panics :
  (∀ b : list byte, parse b ≠ Panicked)
  ∧ ∀ x : Exchange, (∃ f, decode x = Parsed f) ∨ decode x = Abandoned.
Proof.
  split.
  - intros b. destruct (parse_total b) as (r & b' & ->). discriminate.
  - intros [| |payload]; [auto..|]. unfold decode.
    destruct (conn_Read payload) as [n resp].
    case_bool_decide; auto.
    destruct (parse_total (drop 5 resp)) as ([f|] & b' & ->); eauto.
Qed.

(** ** The registry: what each operation does to a record *)

Section registry.

Implicit Types (st : State) (a b : string) (s : ptr) (r : ServerInfo).

Lemma record_Some st a r :
  record st a = Some r ↔ ∃ s, servers st !! a = Some s ∧ heap st !! s = Some r.
Proof.
  unfold record. destruct (servers st !! a) as [s|]; simpl.
  - split; [eauto | by intros (s' & [= <-] & ?)].
  - split; [done | by intros (s' & ? & ?)].
Qed.

Lemma record_None_absent st a : servers st !! a = None → record st a = None.
Proof. unfold record. by intros ->. Qed.

Lemma wf_record st a :
  wf st → is_Some (servers st !! a) → ∃ r, record st a = Some r ∧ Address r = a.
Proof.
  intros Hwf [s Hs]. destruct (Hwf a s Hs) as (r & Hr & Ha).
  exists r. split; [|done]. apply record_Some. eauto.
Qed.

Lemma wf_record_Address st a r : wf st → record st a = Some r → Address r = a.
Proof.
  intros Hwf (s & Hs & Hr)%record_Some.
  destruct (Hwf a s Hs) as (r' & Hr' & Ha). congruence.
Qed.

(** Two addresses never share an object. *)
Lemma wf_inj st a b s :
  wf st → servers st !! a = Some s → servers st !! b = Some s → a = b.
Proof.
  intros Hwf Ha Hb.
  destruct (Hwf a s Ha) as (r & Hr & <-).
  destruct (Hwf b s Hb) as (r' & Hr' & <-). congruence.
Qed.

Lemma alloc_fresh (h : gmap ptr ServerInfo) : h !! alloc h = None.
Proof. apply not_elem_of_dom. unfold alloc. apply is_fresh. Qed.

Lemma wf_init : wf init.
Proof. intros a s. simpl. by rewrite lookup_empty. Qed.

(** *** [registerServer] *)

Lemma registerServer_present now a st s :
  servers st !! a = Some s →
  registerServer now a st
  = mkState (servers st) (alter (set_LastSeen now) s (heap st)).
Proof. unfold registerServer. by intros ->. Qed.

Lemma registerServer_absent now a st :
  servers st !! a = None →
  registerServer now a st
  = mkState (<[a := alloc (heap st)]> (servers st))
      (<[alloc (heap st) := mkServerInfo a now "Scanning..." "" 0 0]> (heap st)).
Proof. unfold registerServer. by intros ->. Qed.

Lemma wf_registerServer now a st : wf st → wf (registerServer now a st).
Proof.
  intros Hwf. destruct (servers st !! a) as [s|] eqn:Ha.
  - rewrite (registerServer_present _ _ _ _ Ha). intros b s' Hb. simpl in *.
    destruct (Hwf b s' Hb) as (r & Hr & Hadr).
    destruct (decide (s = s')) as [->|Hne].
    + exists (set_LastSeen now r). by rewrite lookup_alter_eq, Hr.
    + exists r. by rewrite lookup_alter_ne.
  - rewrite (registerServer_absent _ _ _ Ha). intros b s' Hb. simpl in *.
    apply lookup_insert_Some in Hb as [[<- <-]|[Hne Hb]].
    + eexists. by rewrite lookup_insert_eq.
    + destruct (Hwf b s' Hb) as (r & Hr & Hadr). exists r. split; [|done].
      rewrite lookup_insert_ne; [done|].
      intros <-. by rewrite alloc_fresh in Hr.
Qed.

(** The record of the address that sent the heartbeat. *)
Lemma record_registerServer_eq now a st :
  record (registerServer now a st) a
  = Some (match record st a with
          | Some r => set_LastSeen now r
          | None => mkServerInfo a now "Scanning..." "" 0 0
          end)
  ∨ (∃ s, servers st !! a = Some s ∧ heap st !! s = None).
Proof.
  destruct (servers st !! a) as [s|] eqn:Ha.
  - destruct (heap st !! s) as [r|] eqn:Hr; [left|right; eauto].
    rewrite (registerServer_present _ _ _ _ Ha). unfold record. simpl.
    by rewrite Ha; simpl; rewrite lookup_alter_eq, Hr.
  - left. rewrite (registerServer_absent _ _ _ Ha). unfold record. simpl.
    by rewrite Ha, lookup_insert_eq; simpl; rewrite lookup_insert_eq.
Qed.

Lemma record_registerServer_eq_wf now a st :
  wf st →
  record (registerServer now a st) a
  = Some (match record st a with
          | Some r => set_LastSeen now r
          | None => mkServerInfo a now "Scanning..." "" 0 0
          end).
Proof.
  intros Hwf. destruct (record_registerServer_eq now a st) as [H|(s & Hs & Hn)]; [done|].
  destruct (Hwf a s Hs) as (r & Hr & _). congruence.
Qed.

(** The records of all other addresses stay as they are. *)
Lemma record_registerServer_ne now a b st :
  wf st → a ≠ b → record (registerServer now a st) b = record st b.
Proof.
  intros Hwf Hne. destruct (servers st !! a) as [s|] eqn:Ha.
  - rewrite (registerServer_present _ _ _ _ Ha). unfold record. simpl.
    destruct (servers st !! b) as [s'|] eqn:Hb; simpl; [|done].
    rewrite lookup_alter_ne; [done|]. intros ->. eauto using wf_inj.
  - rewrite (registerServer_absent _ _ _ Ha). unfold record. simpl.
    rewrite lookup_insert_ne by done.
    destruct (servers st !! b) as [s'|] eqn:Hb; simpl; [|done].
    rewrite lookup_insert_ne; [done|]. intros <-.
    destruct (Hwf b _ Hb) as (r & Hr & _). by rewrite alloc_fresh in Hr.
Qed.

(** *** [delete] *)

Lemma wf_delete_server a st : wf st → wf (delete_server a st).
Proof.
  intros Hwf b s. simpl. intros [_ Hb]%lookup_delete_Some. by apply Hwf.
Qed.

Lemma record_delete_server a b st :
  record (delete_server a st) b = if decide (a = b) then None else record st b.
Proof.
  unfold record. simpl. case_decide as Hab.
  - subst. by rewrite lookup_delete_eq.
  - by rewrite lookup_delete_ne.
Qed.

(** *** The write-back *)

Lemma writeBack_absent a f st : servers st !! a = None → writeBack a f st = st.
Proof. unfold writeBack. by intros ->. Qed.

Lemma writeBack_present a f st s :
  servers st !! a = Some s →
  writeBack a f st = mkState (servers st) (alter (set_Status f) s (heap st)).
Proof. unfold writeBack. by intros ->. Qed.

Lemma servers_writeBack a f st : servers (writeBack a f st) = servers st.
Proof. unfold writeBack. by destruct (servers st !! a). Qed.

Lemma wf_writeBack a f st : wf st → wf (writeBack a f st).
Proof.
  intros Hwf. destruct (servers st !! a) as [s|] eqn:Ha.
  - rewrite (writeBack_present _ _ _ _ Ha). intros b s' Hb. simpl in *.
    destruct (Hwf b s' Hb) as (r & Hr & Hadr).
    destruct (decide (s = s')) as [->|Hne].
    + exists (set_Status f r). by rewrite lookup_alter_eq, Hr.
    + exists r. by rewrite lookup_alter_ne.
  - by rewrite writeBack_absent.
Qed.

Lemma record_writeBack_eq a f st :
  record (writeBack a f st) a = set_Status f <$> record st a.
Proof.
  destruct (servers st !! a) as [s|] eqn:Ha.
  - rewrite (writeBack_present _ _ _ _ Ha). unfold record. simpl.
    by rewrite Ha; simpl; rewrite lookup_alter_eq.
  - rewrite writeBack_absent by done. by rewrite record_None_absent.
Qed.

Lemma record_writeBack_ne a b f st :
  wf st → a ≠ b → record (writeBack a f st) b = record st b.
Proof.
  intros Hwf Hne. destruct (servers st !! a) as [s|] eqn:Ha.
  - rewrite (writeBack_present _ _ _ _ Ha). unfold record. simpl.
    destruct (servers st !! b) as [s'|] eqn:Hb; simpl; [|done].
    rewrite lookup_alter_ne; [done|]. intros ->. eauto using wf_inj.
  - by rewrite writeBack_absent.
Qed.

(** *** [queryServerDetails] *)

Lemma queryServerDetails_cases a x st :
  queryServerDetails a x st = st
  ∨ ∃ f, decode x = Parsed f ∧ queryServerDetails a x st = writeBack a f st.
Proof. unfold queryServerDetails. destruct (decode x); eauto. Qed.

Lemma queryServerDetails_short a (payload : list byte) st :
  (length payload < 5)%nat → queryServerDetails a (Datagram payload) st = st.
Proof. intros Hlen. unfold queryServerDetails. by rewrite decode_short. Qed.

Lemma wf_queryServerDetails a x st : wf st → wf (queryServerDetails a x st).
Proof.
  intros Hwf. destruct (queryServerDetails_cases a x st) as [->|(f & _ & ->)];
    auto using wf_writeBack.
Qed.

End registry.

(** ** The sweep *)

Section sweep.

Context (T : Z) (now : string → Z).
Implicit Types (st : State) (kvs : list (string * ptr)).

(** Saturation of [Sub] does not change the outcome of the comparison
    with a threshold that is a [Duration]. *)
Lemma Since_gt (t u : Z) :
  minDuration ≤ T < maxDuration → Since t u > T ↔ u < t - T.
Proof.
  unfold Since, Sub.
  change minDuration with (-9223372036854775808).
  change maxDuration with 9223372036854775807. lia.
Qed.

(** The loop in closed form: the stale entries are deleted, the others
    are appended to [checkList], and no object is written. *)
Lemma sweep_fold kvs st acc :
  foldl (sweep_entry T now) (st, acc) kvs
  = (mkState (foldl (λ m kv, delete kv.1 m) (servers st)
                (filter (stale T now (heap st)) kvs))
             (heap st),
     acc ++ (filter (λ kv, ¬ stale T now (heap st) kv) kvs).*1).
Proof.
  revert st acc. induction kvs as [|[a s] kvs IH]; intros st acc.
  - destruct st. simpl. by rewrite app_nil_r.
  - cbn [foldl sweep_entry]. case_bool_decide as Hst.
    + rewrite IH. simpl.
      rewrite filter_cons_True by done.
      rewrite (filter_cons_False (λ kv, ¬ _)) by (intros H; by apply H).
      done.
    + rewrite IH.
      rewrite filter_cons_False by done.
      rewrite (filter_cons_True (λ kv, ¬ _)) by done.
      simpl. by rewrite <- app_assoc.
Qed.

Lemma lookup_foldl_delete {V} (m : gmap string V) (l : list (string * ptr)) a :
  foldl (λ m kv, delete kv.1 m) m l !! a
  = if decide (a ∈ l.*1) then None else m !! a.
Proof.
  revert m. induction l as [|[b s] l IH]; intros m.
  - rewrite decide_False; [done | apply not_elem_of_nil].
  - cbn [foldl]. rewrite IH. rewrite fmap_cons. cbn [fst].
    destruct (decide (a ∈ l.*1)) as [Hin|Hnin].
    + rewrite decide_True; [done | by right].
    + destruct (decide (b = a)) as [->|Hne].
      * rewrite lookup_delete_eq, decide_True; [done | by left].
      * rewrite lookup_delete_ne by done.
        rewrite decide_False; [done|].
        intros [?|?]%elem_of_cons; simpl in *; congruence.
Qed.

Lemma heap_sweep kvs st : heap (sweep T now kvs st).1 = heap st.
Proof. unfold sweep. by rewrite sweep_fold. Qed.

Lemma servers_sweep kvs st a :
  servers (sweep T now kvs st).1 !! a
  = if decide (a ∈ (filter (stale T now (heap st)) kvs).*1)
    then None else servers st !! a.
Proof. unfold sweep. rewrite sweep_fold. simpl. apply lookup_foldl_delete. Qed.

Lemma checkList_sweep kvs st :
  (sweep T now kvs st).2
  = (filter (λ kv, ¬ stale T now (heap st) kv) kvs).*1.
Proof. unfold sweep. by rewrite sweep_fold. Qed.

(** The sweep creates nothing and writes to no record. *)
Lemma record_sweep_Some kvs st a r :
  record (sweep T now kvs st).1 a = Some r → record st a = Some r.
Proof.
  intros (s & Hs & Hr)%record_Some. apply record_Some. exists s.
  rewrite heap_sweep in Hr. rewrite servers_sweep in Hs.
  by case_decide.
Qed.

Lemma wf_sweep kvs st : wf st → wf (sweep T now kvs st).1.
Proof.
  intros Hwf a s Hs. rewrite heap_sweep. rewrite servers_sweep in Hs.
  case_decide; [done|]. by apply Hwf.
Qed.

Lemma range_order_elem st kvs a s :
  range_order st kvs → (a, s) ∈ kvs ↔ servers st !! a = Some s.
Proof. intros Hkvs. rewrite Hkvs. apply elem_of_map_to_list. Qed.


(** Under a well-formed registry the test of an entry is the test of
    the record of its address. *)
Lemma stale_entry st kvs a s r :
  range_order st kvs → servers st !! a = Some s → heap st !! s = Some r →
  minDuration ≤ T < maxDuration →
  a ∈ (filter (stale T now (heap st)) kvs).*1 ↔ LastSeen r < now a - T.
Proof.
  intros Hkvs Hs Hr HT. rewrite <- (Since_gt (now a) (LastSeen r)) by done.
  rewrite list_elem_of_fmap. split.
  - intros ([a' s'] & -> & [Hst Hin]%list_elem_of_filter).
    apply (range_order_elem st) in Hin; [|done]. simpl in *.
    rewrite Hs in Hin. injection Hin as <-.
    unfold stale, deref in Hst. simpl in Hst. by rewrite Hr in Hst.
  - intros Hst. exists (a, s). split; [done|].
    apply list_elem_of_filter. split.
    + unfold stale, deref. simpl. by rewrite Hr.
    + by apply (range_order_elem st).
Qed.

End sweep.

(** ** Sorting and the list of [handleWeb] *)

Section handleWeb.

Context {A : Type} (key : A → Z).

Lemma sort_insert_Permutation (lt : A → A → bool) x l :
  sort_insert lt x l ≡ₚ x :: l.
Proof.
  induction l as [|y l IH]; simpl; [done|].
  destruct (lt x y); [done|]. rewrite IH. apply perm_swap.
Qed.

Lemma sort_Slice_Permutation (lt : A → A → bool) l : sort_Slice lt l ≡ₚ l.
Proof.
  induction l as [|x l IH]; simpl; [done|].
  rewrite sort_insert_Permutation. by f_equiv.
Qed.

(** Inserting by [After] keeps a list in descending order of [key]. *)
Lemma sort_insert_sorted x l :
  StronglySorted (λ i j, key j ≤ key i) l →
  StronglySorted (λ i j, key j ≤ key i)
    (sort_insert (λ i j, After (key i) (key j)) x l).
Proof.
  induction 1 as [|y l Hl IH Hy]; simpl.
  - repeat constructor.
  - unfold After at 1. case_bool_decide as Hxy.
    + constructor; [by constructor|]. constructor; [lia|].
      eapply Forall_impl; [exact Hy|]. simpl. lia.
    + constructor; [done|].
      rewrite sort_insert_Permutation. constructor; [lia | done].
Qed.

Lemma sort_Slice_sorted l :
  StronglySorted (λ i j, key j ≤ key i)
    (sort_Slice (λ i j, After (key i) (key j)) l).
Proof.
  induction l as [|x l IH]; simpl; [constructor|].
  by apply sort_insert_sorted.
Qed.

End handleWeb.

Section handleWeb_registry.

Implicit Types (st : State) (kvs : list (string * ptr)).

Lemma Servers_handleWeb kvs st :
  range_order st kvs → Servers (handleWeb kvs st) ≡ₚ (map_to_list (servers st)).*2.
Proof.
  intros Hkvs. unfold handleWeb. simpl.
  rewrite sort_Slice_Permutation. by rewrite Hkvs.
Qed.

(** Reading the objects of a well-formed registry gives back the keys. *)
Lemma Address_deref_entries st (l : list (string * ptr)) :
  wf st → (∀ a s, (a, s) ∈ l → servers st !! a = Some s) →
  Address <$> (deref (heap st) <$> l.*2) = l.*1.
Proof.
  intros Hwf. induction l as [|[a s] l IH]; intros Hl; [done|].
  rewrite !fmap_cons. simpl. f_equal.
  - destruct (Hwf a s) as (r & Hr & Ha); [apply Hl; by left|].
    unfold deref. by rewrite Hr.
  - apply IH. intros a' s' Hin. apply Hl. by right.
Qed.

Lemma rows_handleWeb_elem kvs st r :
  wf st → range_order st kvs →
  r ∈ rows st (handleWeb kvs st) ↔ ∃ a, record st a = Some r.
Proof.
  intros Hwf Hkvs. unfold rows. rewrite list_elem_of_fmap.
  setoid_rewrite (Servers_handleWeb kvs st Hkvs).
  setoid_rewrite list_elem_of_fmap. split.
  - intros (s & -> & [a s'] & -> & Hin%elem_of_map_to_list). simpl.
    exists a. apply record_Some. exists s'. split; [done|].
    destruct (Hwf a s' Hin) as (r & Hr & _). unfold deref. by rewrite Hr.
  - intros (a & (s & Hs & Hr)%record_Some). exists s. split.
    + unfold deref. by rewrite Hr.
    + exists (a, s). split; [done|]. by apply elem_of_map_to_list.
Qed.

Lemma rows_handleWeb_NoDup kvs st :
  wf st → range_order st kvs → NoDup (Address <$> rows st (handleWeb kvs st)).
Proof.
  intros Hwf Hkvs. unfold rows.
  rewrite (Servers_handleWeb kvs st Hkvs).
  rewrite Address_deref_entries; [apply NoDup_fst_map_to_list | done |].
  intros a s. apply elem_of_map_to_list.
Qed.

End handleWeb_registry.

(** ** Invariants of the reachable states *)

Section invariants.

Implicit Types (st : State) (a b : string) (r : ServerInfo).

(** A status query rewrites the descriptive fields of the record of
    its own address and nothing else. *)
Lemma record_queryServerDetails a x st b r' :
  wf st → record (queryServerDetails a x st) b = Some r' →
  ∃ r, record st b = Some r
       ∧ Address r' = Address r ∧ LastSeen r' = LastSeen r
       ∧ (a ≠ b → r' = r).
Proof.
  intros Hwf. destruct (queryServerDetails_cases a x st) as [->|(f & _ & ->)].
  - intros Hr. by exists r'.
  - destruct (decide (a = b)) as [->|Hne].
    + rewrite record_writeBack_eq. destruct (record st b) as [r|]; [|done].
      intros [= <-]. by exists r.
    + rewrite record_writeBack_ne by done. intros Hr. by exists r'.
Qed.

Lemma record_registerServer now a st b r' :
  wf st → record (registerServer now a st) b = Some r' →
  (a = b ∧ LastSeen r' = now) ∨ (a ≠ b ∧ record st b = Some r').
Proof.
  intros Hwf. destruct (decide (a = b)) as [->|Hne].
  - rewrite record_registerServer_eq_wf by done. intros [= <-]. left.
    split; [done|]. by destruct (record st b).
  - rewrite record_registerServer_ne by done. auto.
Qed.

Lemma step_wf st c e st' c' : step (st, c) e (st', c') → wf st → wf st'.
Proof.
  inversion 1; subst; intros Hwf;
    auto using wf_registerServer, wf_sweep, wf_queryServerDetails.
  by apply wf_sweep.
Qed.

(** In every reachable state the registry is well formed and no record
    was seen later than the clock reads. *)
Lemma reachable_inv σ :
  reachable σ →
  wf σ.1 ∧ ∀ a r, record σ.1 a = Some r → LastSeen r ≤ σ.2.
Proof.
  induction 1 as [c|σ e σ' Hσ [IHwf IHt] Hstep].
  - split; [apply wf_init|]. intros a r. by rewrite record_None_absent.
  - destruct σ as [st c], σ' as [st' c']. simpl in *.
    split; [by eapply step_wf|]. intros b r' Hr'.
    inversion Hstep; subst.
    + apply record_registerServer in Hr'; [|done].
      destruct Hr' as [[_ ->]|[_ Hr']]; [lia|]. apply IHt in Hr'. lia.
    + apply record_sweep_Some, IHt in Hr'. lia.
    + apply record_queryServerDetails in Hr'; [|done].
      destruct Hr' as (r & Hr & _ & -> & _). apply IHt in Hr. lia.
Qed.

Lemma wf_st_a : wf st_a.
Proof. apply wf_registerServer, wf_init. Qed.

Lemma wf_st_ab : wf st_ab.
Proof. apply wf_registerServer, wf_st_a. Qed.

Lemma reachable_st_ab : reachable (st_ab, 5).
Proof.
  eapply reach_step; [eapply reach_step; [apply (reach_init 0)|]|].
  - apply (step_heartbeat init 0 1 "a"). lia.
  - apply (step_heartbeat st_a 1 5 "b"). lia.
Qed.

End invariants.

(** ** The registry: the properties of the specification *)

(** C1. A response that is cut off inside the server name is not
    rejected: the parser runs on into the zero bytes that fill the rest
    of the 1400-byte receive array, takes them for terminators and
    counts, and the placeholder name of the record is overwritten. *)
Theorem cut_response_overwrites_record :
  truncated_mid_string cut_response
  ∧ decode (Datagram cut_response) = Parsed (mkStatus "Al" "" 0 0)
  ∧ record st_a "a" = Some (mkServerInfo "a" 1 "Scanning..." "" 0 0)
  ∧ record (queryServerDetails "a" (Datagram cut_response) st_a) "a"
    = Some (mkServerInfo "a" 1 "Al" "" 0 0).
Proof.
  split; [|split; [|split]].
  - split; vm_compute; lia.
  - vm_compute. reflexivity.
  - vm_compute. reflexivity.
  - vm_compute. reflexivity.
Qed.

(** C3. Once the record of [A] is gone, a write-back for [A] leaves the
    registry as it is, whatever the response was: no record is created
    and none is changed. While the record exists, the write-back
    replaces its name, map, players and maxPlayers. *)
Theorem writeBack_no_resurrection
    (A : string) (f : Status) (st gone : State) (r : ServerInfo) :
  record st A = Some r →
  servers gone !! A = None →
  writeBack A f gone = gone
  ∧ (∀ x, queryServerDetails A x gone = gone)
  ∧ writeBack A f (delete_server A st) = delete_server A st
  ∧ record (writeBack A f st) A
    = Some (mkServerInfo (Address r) (LastSeen r)
              (st_name f) (st_mapName f) (st_players f) (st_maxPlayers f)).
Proof.
  intros Hr Hgone. split; [|split; [|split]].
  - by apply writeBack_absent.
  - intros x. destruct (queryServerDetails_cases A x gone) as [->|(f' & _ & ->)];
      [done | by apply writeBack_absent].
  - apply writeBack_absent. simpl. apply lookup_delete_eq.
  - by rewrite record_writeBack_eq, Hr.
Qed.

Lemma writeBack_no_resurrection_witness :
  let f := mkStatus "Alpha" "de_dust2" 16 32 in
  record st_ab "a" = Some (mkServerInfo "a" 1 "Scanning..." "" 0 0)
  ∧ servers (delete_server "a" st_ab) !! "a" = None
  ∧ writeBack "a" f (delete_server "a" st_ab) = delete_server "a" st_ab
  ∧ record (writeBack "a" f st_ab) "a"
    = Some (mkServerInfo "a" 1 "Alpha" "de_dust2" 16 32).
Proof.
  intros f.
  assert (record st_ab "a" = Some (mkServerInfo "a" 1 "Scanning..." "" 0 0))
    as Hr by (vm_compute; reflexivity).
  assert (servers (delete_server "a" st_ab) !! "a" = None)
    as Hgone by (vm_compute; reflexivity).
  split; [exact Hr|]. split; [exact Hgone|].
  pose proof (writeBack_no_resurrection "a" f st_ab (delete_server "a" st_ab) _ Hr Hgone)
    as (H1 & _ & _ & H4).
  split; [exact H1 | exact H4].
Defined.

(** C4. A write-back for [A] keeps the address and [LastSeen] of every
    record and leaves the records of all other addresses as they are;
    and no step of the registry other than a heartbeat of [B] itself
    changes the [LastSeen] of the record of [B]. *)
Theorem writeBack_keeps_LastSeen
    (A B : string) (f : Status) (st : State) (r : ServerInfo) :
  wf st → record st B = Some r →
  (∃ r', record (writeBack A f st) B = Some r'
         ∧ Address r' = Address r ∧ LastSeen r' = LastSeen r
         ∧ (A ≠ B → r' = r))
  ∧ ∀ c e st' c' r',
      step (st, c) e (st', c') → e ≠ Heartbeat B →
      record st' B = Some r' →
      Address r' = Address r ∧ LastSeen r' = LastSeen r.
Proof.
  intros Hwf Hr. split.
  - destruct (decide (A = B)) as [->|Hne].
    + exists (set_Status f r). by rewrite record_writeBack_eq, Hr.
    + exists r. by rewrite record_writeBack_ne.
  - intros c e st' c' r' Hstep He Hr'. inversion Hstep; subst.
    + apply record_registerServer in Hr'; [|done].
      destruct Hr' as [[-> _]|[_ Hr']]; [done | by simplify_eq].
    + apply record_sweep_Some in Hr'. by simplify_eq.
    + apply record_queryServerDetails in Hr'; [|done].
      destruct Hr' as (r0 & Hr0 & ? & ? & _). by simplify_eq.
Qed.

Lemma writeBack_keeps_LastSeen_witness :
  let f := mkStatus "Alpha" "de_dust2" 16 32 in
  wf st_ab
  ∧ record st_ab "a" = Some (mkServerInfo "a" 1 "Scanning..." "" 0 0)
  ∧ ∃ r', record (writeBack "a" f st_ab) "a" = Some r'
          ∧ Address r' = "a"%string ∧ LastSeen r' = 1.
Proof.
  intros f.
  assert (record st_ab "a" = Some (mkServerInfo "a" 1 "Scanning..." "" 0 0))
    as Hr by (vm_compute; reflexivity).
  split; [exact wf_st_ab|]. split; [exact Hr|].
  destruct (proj1 (writeBack_keeps_LastSeen "a" "a" f st_ab _ wf_st_ab Hr))
    as (r' & Hr' & Ha & Ht & _).
  exists r'. repeat split; assumption.
Defined.

Section sweep_claim.

Context (T : Z) (now : string → Z).

Lemma checkList_entry (st : State) (kvs : list (string * ptr)) a s r :
  range_order st kvs → servers st !! a = Some s → heap st !! s = Some r →
  minDuration ≤ T < maxDuration →
  a ∈ (sweep T now kvs st).2 ↔ ¬ LastSeen r < now a - T.
Proof.
  intros Hkvs Hs Hr HT. rewrite <- (Since_gt T (now a) (LastSeen r)) by done.
  rewrite checkList_sweep, list_elem_of_fmap. split.
  - intros ([a' s'] & -> & [Hst Hin]%list_elem_of_filter).
    apply (range_order_elem st) in Hin; [|done]. simpl in *.
    rewrite Hs in Hin. injection Hin as <-.
    unfold stale, deref in Hst. simpl in Hst. by rewrite Hr in Hst.
  - intros Hst. exists (a, s). split; [done|].
    apply list_elem_of_filter. split.
    + unfold stale, deref. simpl. by rewrite Hr.
    + by apply (range_order_elem st).
Qed.


End sweep_claim.



Lemma registerServer_is_Some (t : Z) (a : string) (st : State) :
  is_Some (servers (registerServer t a st) !! a).
Proof.
  unfold registerServer. destruct (servers st !! a) as [s|] eqn:Hs; simpl.
  - by rewrite Hs.
  - by rewrite lookup_insert_eq.
Qed.

(** C6. In every state the program can reach, the registry holds one
    record per address, the one whose [Address] is its key; a repeated
    heartbeat of an address adds no entry; and along every step the
    [LastSeen] of a record that stays does not decrease. *)
Theorem one_record_per_address (σ : State * Z) :
  reachable σ →
  (∀ kvs, range_order σ.1 kvs →
          NoDup (Address <$> rows σ.1 (handleWeb kvs σ.1)))
  ∧ (∀ a r, record σ.1 a = Some r → Address r = a)
  ∧ (∀ a t1 t2,
       servers (registerServer t2 a (registerServer t1 a σ.1))
       = servers (registerServer t1 a σ.1))
  ∧ (∀ e σ' a r r',
       step σ e σ' →
       record σ.1 a = Some r → record σ'.1 a = Some r' →
       LastSeen r ≤ LastSeen r').
Proof.
  intros [Hwf Ht]%reachable_inv. split; [|split; [|split]].
  - intros kvs Hkvs. by apply rows_handleWeb_NoDup.
  - intros a r. by apply wf_record_Address.
  - intros a t1 t2. destruct (registerServer_is_Some t1 a σ.1) as [s Hs].
    by rewrite (registerServer_present _ _ _ _ Hs).
  - intros e σ' a r r' Hstep Hr Hr'. inversion Hstep; subst; simpl in *.
    + apply record_registerServer in Hr'; [|done].
      destruct Hr' as [[-> ->]|[_ Hr']]; [|by simplify_eq].
      apply Ht in Hr. lia.
    + apply record_sweep_Some in Hr'. by simplify_eq.
    + apply record_queryServerDetails in Hr'; [|done].
      destruct Hr' as (r0 & Hr0 & _ & -> & _). by simplify_eq.
Qed.

Lemma one_record_per_address_witness :
  reachable (st_ab, 5)
  ∧ (∀ a r, record st_ab a = Some r → Address r = a)
  ∧ (∀ e σ' a r r',
       step (st_ab, 5) e σ' →
       record st_ab a = Some r → record σ'.1 a = Some r' →
       LastSeen r ≤ LastSeen r').
Proof.
  split; [exact reachable_st_ab|].
  pose proof (one_record_per_address (st_ab, 5) reachable_st_ab) as (_ & H2 & _ & H4).
  split; [exact H2 | exact H4].
Defined.

(** * Further properties of the program *)

(** ** The reader, once more *)

Section reader_more.

Lemma readSlice_found (delim : byte) (b l r : list byte) :
  readSlice delim b = (l, r, true) →
  ∃ l', l = l' ++ [delim] ∧ (delim ∉ l') ∧ b = l' ++ delim :: r.
Proof.
  revert l r. induction b as [|x b IH]; intros l r; simpl; [done|].
  destruct (Byte.eqb x delim) eqn:E.
  - apply Byte.byte_dec_bl in E as ->. intros [= <- <-].
    exists []. split; [done|]. split; [apply not_elem_of_nil | done].
  - destruct (readSlice delim b) as [[l0 r0] found] eqn:Hb.
    intros [= <- <- ->]. destruct (IH l0 r0 eq_refl) as (l' & -> & Hnot & ->).
    exists (x :: l'). split; [done|]. split; [|done].
    apply not_elem_of_cons. split; [|done].
    intros <-. rewrite (@Byte.byte_dec_lb delim delim eq_refl) in E. discriminate.
Qed.

Lemma readSlice_not_found (delim : byte) (b l r : list byte) :
  readSlice delim b = (l, r, false) → l = b ∧ r = [] ∧ (delim ∉ b).
Proof.
  revert l r. induction b as [|x b IH]; intros l r; simpl.
  - intros [= <- <-]. split; [done|]. split; [done | apply not_elem_of_nil].
  - destruct (Byte.eqb x delim) eqn:E; [done|].
    destruct (readSlice delim b) as [[l0 r0] found] eqn:Hb.
    intros [= <- <- ->]. destruct (IH l0 r0 eq_refl) as (-> & -> & Hnot).
    split; [done|]. split; [done|]. apply not_elem_of_cons. split; [|done].
    apply Byte.eqb_false in E. congruence.
Qed.

(** [readString] in one equation: what [ReadString] read, without its
    last byte. *)
Lemma readString_eq (b : list byte) :
  readString b
  = Done (String.string_of_list_byte (removelast (readSlice x00 b).1.1),
          (readSlice x00 b).1.2).
Proof.
  unfold readString, bind, ReadString.
  destruct (readSlice x00 b) as [[l r] found]. cbn [fst snd].
  rewrite length_string_of_list_byte. case_bool_decide as Hpos.
  - unfold lift. rewrite slice_to_in_range.
    + rewrite substring_string_of_list_byte.
      replace (Z.to_nat (Z.of_nat (length l) - 1)) with (length l - 1)%nat by lia.
      by rewrite take_pred_length.
    + rewrite length_string_of_list_byte. lia.
  - destruct l; [done | simpl in Hpos; lia].
Qed.

Lemma not_elem_of_removelast (x : byte) (l : list byte) :
  x ∉ l → x ∉ removelast l.
Proof.
  intros Hnot Hin. apply Hnot. rewrite <- take_pred_length in Hin.
  rewrite <- (take_drop (length l - 1) l). apply elem_of_app. by left.
Qed.

(** A string that [readString] returns has no zero byte in it. *)
Lemma readString_no_NUL (b rest : list byte) (s : string) :
  readString b = Done (s, rest) → x00 ∉ String.list_byte_of_string s.
Proof.
  rewrite readString_eq. intros [= <- _].
  rewrite String.list_byte_of_string_of_list_byte.
  destruct (readSlice x00 b) as [[l r] [|]] eqn:Hb; cbn [fst].
  - apply readSlice_found in Hb as (l' & -> & Hnot & _).
    by rewrite removelast_last.
  - apply readSlice_not_found in Hb as (-> & _ & Hnot).
    by apply not_elem_of_removelast.
Qed.

Lemma int_of_byte_range (x : byte) : 0 ≤ int_of_byte x ≤ 255.
Proof. unfold int_of_byte. pose proof (Byte.to_N_bounded x). lia. Qed.

(** The values of a successful parse. *)
Lemma parse_Some (b b' : list byte) (f : Status) :
  parse b = Done (Some f, b') →
  (x00 ∉ String.list_byte_of_string (st_name f))
  ∧ (x00 ∉ String.list_byte_of_string (st_mapName f))
  ∧ 0 ≤ st_players f ≤ 255 ∧ 0 ≤ st_maxPlayers f ≤ 255.
Proof.
  unfold parse, bind, Next, Len.
  destruct (readString (drop 1 b)) as [[name b1]|] eqn:E1; [|done].
  destruct (readString b1) as [[mapName b2]|] eqn:E2; [|done].
  destruct (readString b2) as [[folder b3]|]; [|done].
  destruct (readString b3) as [[game b4]|]; [|done].
  case_bool_decide; [done|].
  unfold lift. destruct (index (take 1 (drop 2 b4)) 0) as [p|]; [|done].
  destruct (index (take 1 (drop 1 (drop 2 b4))) 0) as [q|]; [|done].
  unfold ret. intros [= <-]. simpl.
  split; [by eapply readString_no_NUL|]. split; [by eapply readString_no_NUL|].
  split; apply int_of_byte_range.
Qed.

Lemma decode_Parsed (x : Exchange) (f : Status) :
  decode x = Parsed f →
  (x00 ∉ String.list_byte_of_string (st_name f))
  ∧ (x00 ∉ String.list_byte_of_string (st_mapName f))
  ∧ 0 ≤ st_players f ≤ 255 ∧ 0 ≤ st_maxPlayers f ≤ 255.
Proof.
  destruct x as [| |payload]; [done..|]. unfold decode.
  destruct (conn_Read payload) as [n resp]. case_bool_decide; [done|].
  destruct (parse (drop 5 resp)) as [[[f'|] b']|] eqn:Hp; [|done..].
  intros [= <-]. by eapply parse_Some.
Qed.

(** A datagram that fills the receive array and has no zero byte after
    the protocol version is given up: the first string takes all that is
    left, and the length check fails. *)
Lemma decode_unterminated (payload : list byte) :
  (1400 ≤ length payload)%nat →
  x00 ∉ drop 6 (take 1400 payload) →
  decode (Datagram payload) = Abandoned.
Proof.
  intros Hlen Hnot. unfold decode, conn_Read.
  change respSize with 1400%nat.
  assert (length (take 1400 payload) = 1400%nat) as Ht
    by (rewrite length_take; lia).
  rewrite Ht, Nat.sub_diag. cbn [replicate]. rewrite app_nil_r.
  rewrite bool_decide_eq_false_2 by lia.
  unfold parse, bind, Next, Len. rewrite drop_drop.
  change (5 + 1)%nat with 6%nat.
  rewrite (readString_eq (drop 6 _)), readSlice_no_delim by done. cbn [fst snd].
  rewrite !(readString_eq []). cbn [readSlice fst snd]. done.
Qed.

End reader_more.

(** X3. A query whose dial or read fails, whose answer has fewer than
    five bytes, or whose answer fills the 1400-byte array without a zero
    byte after the protocol version, leaves the registry exactly as it
    was. *)
Theorem queryServerDetails_gives_up (a : string) (st : State) :
  queryServerDetails a DialFailed st = st
  ∧ queryServerDetails a ReadFailed st = st
  ∧ (∀ payload : list byte,
       (length payload < 5)%nat →
       queryServerDetails a (Datagram payload) st = st)
  ∧ (∀ payload : list byte,
       (1400 ≤ length payload)%nat →
       x00 ∉ drop 6 (take 1400 payload) →
       queryServerDetails a (Datagram payload) st = st).
Proof.
  split; [done|]. split; [done|]. split.
  - intros payload Hlen. by apply queryServerDetails_short.
  - intros payload Hlen Hnot. unfold queryServerDetails.
    by rewrite decode_unterminated.
Qed.

Lemma queryServerDetails_gives_up_witness :
  let payload := replicate 1400 x41 in
  (1400 ≤ length payload)%nat
  ∧ (x00 ∉ drop 6 (take 1400 payload))
  ∧ queryServerDetails "a" (Datagram payload) st_a = st_a.
Proof.
  intros payload.
  assert (1400 ≤ length payload)%nat as Hlen
    by (unfold payload; rewrite length_replicate; lia).
  assert (x00 ∉ drop 6 (take 1400 payload)) as Hnot.
  { unfold payload. rewrite take_replicate, drop_replicate.
    intros [H _]%elem_of_replicate. discriminate H. }
  split; [exact Hlen|]. split; [exact Hnot|].
  exact (proj2 (proj2 (proj2 (queryServerDetails_gives_up "a" st_a))) payload Hlen Hnot).
Defined.

(** X4. On a buffer that is not empty, [readString] splits it in three:
    the string it returns, which has no zero byte, one byte that is
    dropped, and the bytes that stay in the buffer; the dropped byte is
    the terminator, unless the buffer ran out, in which case it is the
    last byte of the data. *)
Theorem readString_splits (b rest : list byte) (s : string) :
  readString b = Done (s, rest) → b ≠ [] →
  ∃ x, b = String.list_byte_of_string s ++ x :: rest
       ∧ (x00 ∉ String.list_byte_of_string s)
       ∧ (x = x00 ∨ (rest = [] ∧ x00 ∉ b)).
Proof.
  intros Hread Hne. pose proof (readString_no_NUL _ _ _ Hread) as Hnul.
  rewrite readString_eq in Hread. injection Hread as <- <-.
  rewrite String.list_byte_of_string_of_list_byte in *.
  destruct (readSlice x00 b) as [[l r] [|]] eqn:Hb; cbn [fst snd] in *.
  - apply readSlice_found in Hb as (l' & -> & Hnot & ->).
    exists x00. rewrite removelast_last. auto.
  - apply readSlice_not_found in Hb as (-> & -> & Hnot).
    exists (List.last b x00). split; [|by auto].
    by apply app_removelast_last.
Qed.

Lemma readString_splits_witness :
  readString [x41; x6c; x00; x64] = Done ("Al"%string, [x64])
  ∧ [x41; x6c; x00; x64] ≠ []
  ∧ ∃ x, [x41; x6c; x00; x64] = String.list_byte_of_string "Al" ++ x :: [x64]
         ∧ (x00 ∉ String.list_byte_of_string "Al")
         ∧ (x = x00 ∨ ([x64] = [] ∧ x00 ∉ [x41; x6c; x00; x64])).
Proof.
  assert (readString [x41; x6c; x00; x64] = Done ("Al"%string, [x64])) as Hread
    by reflexivity.
  assert ([x41; x6c; x00; x64] ≠ []) as Hne by discriminate.
  split; [exact Hread|]. split; [exact Hne|].
  exact (readString_splits _ _ _ Hread Hne).
Defined.

(** ** Heartbeats and write-backs on the registry *)

Section registry_more.

Implicit Types (st : State) (a b : string) (s : ptr) (r : ServerInfo).

Lemma dom_registerServer now a st :
  dom (servers (registerServer now a st)) = {[a]} ∪ dom (servers st).
Proof.
  destruct (servers st !! a) as [s|] eqn:Ha.
  - rewrite (registerServer_present _ _ _ _ Ha). simpl.
    apply elem_of_dom_2 in Ha. symmetry.
    by apply subseteq_union_1_L, singleton_subseteq_l.
  - rewrite (registerServer_absent _ _ _ Ha). simpl. apply dom_insert_L.
Qed.

Lemma alter_alter_ne {V} (g1 g2 : V → V) (i j : ptr) (h : gmap ptr V) :
  i ≠ j → alter g1 i (alter g2 j h) = alter g2 j (alter g1 i h).
Proof.
  intros Hne. apply map_eq. intros k.
  destruct (decide (k = i)) as [->|Hki].
  - by rewrite lookup_alter_eq, !lookup_alter_ne, lookup_alter_eq by done.
  - rewrite (lookup_alter_ne g1) by done.
    destruct (decide (k = j)) as [->|Hkj].
    + by rewrite !lookup_alter_eq, lookup_alter_ne by done.
    + by rewrite !lookup_alter_ne by done.
Qed.

Lemma alter_alter_eq {V} (g1 g2 : V → V) (i : ptr) (h : gmap ptr V) :
  alter g1 i (alter g2 i h) = alter (g1 ∘ g2) i h.
Proof.
  apply map_eq. intros k. destruct (decide (k = i)) as [->|Hki].
  - rewrite !lookup_alter_eq. by destruct (h !! i).
  - by rewrite !lookup_alter_ne by done.
Qed.

Lemma writeBack_commute a b f g st :
  wf st → a ≠ b →
  writeBack a f (writeBack b g st) = writeBack b g (writeBack a f st).
Proof.
  intros Hwf Hne.
  destruct (servers st !! a) as [sa|] eqn:Ha;
    destruct (servers st !! b) as [sb|] eqn:Hb.
  - rewrite (writeBack_present b g st sb Hb), (writeBack_present a f st sa Ha).
    rewrite (writeBack_present a f (mkState _ _) sa) by done.
    rewrite (writeBack_present b g (mkState _ _) sb) by done.
    simpl. f_equal. apply alter_alter_ne. intros ->. eauto using wf_inj.
  - rewrite (writeBack_absent b g st Hb).
    rewrite (writeBack_absent b g (writeBack a f st)); [done|].
    by rewrite servers_writeBack.
  - rewrite (writeBack_absent a f st Ha).
    rewrite (writeBack_absent a f (writeBack b g st)); [done|].
    by rewrite servers_writeBack.
  - by rewrite (writeBack_absent b g st Hb), (writeBack_absent a f st Ha),
      (writeBack_absent b g st Hb).
Qed.

Lemma queryServerDetails_commute a b x y st :
  wf st → a ≠ b →
  queryServerDetails a x (queryServerDetails b y st)
  = queryServerDetails b y (queryServerDetails a x st).
Proof.
  intros Hwf Hne. unfold queryServerDetails.
  destruct (decode x), (decode y); try done. by apply writeBack_commute.
Qed.

End registry_more.

(** X2. When the server at a registered address answers with a complete
    response of at most 1400 bytes (five header bytes, protocol version,
    four terminated strings, two id bytes, the two counts, then anything)
    the record of that address gets the name, the map and the two counts
    of the response, and keeps its address and [LastSeen]. *)
Theorem queryServerDetails_complete_response
    (a : string) (st : State) (r : ServerInfo)
    (hdr name map folder game rest : list byte) (ver i1 i2 p m : byte) :
  let payload :=
    hdr ++ ver :: name ++ x00 :: map ++ x00 :: folder ++ x00 :: game ++ x00
        :: i1 :: i2 :: p :: m :: rest in
  length hdr = 5%nat → (length payload ≤ 1400)%nat →
  x00 ∉ name → x00 ∉ map → x00 ∉ folder → x00 ∉ game →
  record st a = Some r →
  record (queryServerDetails a (Datagram payload) st) a
  = Some (mkServerInfo (Address r) (LastSeen r)
            (String.string_of_list_byte name) (String.string_of_list_byte map)
            (int_of_byte p) (int_of_byte m)).
Proof.
  intros payload Hhdr Hlen Hname Hmap Hfolder Hgame Hr.
  unfold queryServerDetails, payload.
  rewrite decode_well_formed by done.
  by rewrite record_writeBack_eq, Hr.
Qed.

Lemma queryServerDetails_complete_response_witness :
  let bytes := String.list_byte_of_string in
  let payload :=
    [xff; xff; xff; xff; x49] ++ x02 :: bytes "Alpha" ++ x00 :: bytes "de_dust2"
      ++ x00 :: bytes "cstrike" ++ x00 :: bytes "Counter-Strike" ++ x00
      :: x00 :: x00 :: x10 :: x20 :: [] in
  length [xff; xff; xff; xff; x49] = 5%nat
  ∧ (length payload ≤ 1400)%nat
  ∧ (x00 ∉ bytes "Alpha") ∧ (x00 ∉ bytes "de_dust2")
  ∧ (x00 ∉ bytes "cstrike") ∧ (x00 ∉ bytes "Counter-Strike")
  ∧ record st_a "a" = Some (mkServerInfo "a" 1 "Scanning..." "" 0 0)
  ∧ record (queryServerDetails "a" (Datagram payload) st_a) "a"
    = Some (mkServerInfo "a" 1 "Alpha" "de_dust2" 16 32).
Proof.
  intros bytes payload.
  assert (length [xff; xff; xff; xff; x49] = 5%nat) as H1 by reflexivity.
  assert (length payload ≤ 1400)%nat as H2 by (vm_compute; lia).
  assert (x00 ∉ bytes "Alpha") as H3
    by (apply (bool_decide_unpack _); vm_compute; exact I).
  assert (x00 ∉ bytes "de_dust2") as H4
    by (apply (bool_decide_unpack _); vm_compute; exact I).
  assert (x00 ∉ bytes "cstrike") as H5
    by (apply (bool_decide_unpack _); vm_compute; exact I).
  assert (x00 ∉ bytes "Counter-Strike") as H6
    by (apply (bool_decide_unpack _); vm_compute; exact I).
  assert (record st_a "a" = Some (mkServerInfo "a" 1 "Scanning..." "" 0 0)) as H7
    by (vm_compute; reflexivity).
  repeat (split; [assumption|]).
  exact (queryServerDetails_complete_response "a" st_a _
           [xff; xff; xff; xff; x49] (bytes "Alpha") (bytes "de_dust2")
           (bytes "cstrike") (bytes "Counter-Strike") [] x02 x00 x00 x10 x20
           H1 H2 H3 H4 H5 H6 H7).
Defined.

(** X5. The first heartbeat of an address adds one record: that address,
    the time of the heartbeat, the name ["Scanning..."], an empty map
    and zero counts. The records of all other addresses stay as they
    are. *)
Theorem registerServer_new (now : Z) (a : string) (st : State) :
  wf st → servers st !! a = None →
  let st' := registerServer now a st in
  record st' a = Some (mkServerInfo a now "Scanning..." "" 0 0)
  ∧ size (servers st') = S (size (servers st))
  ∧ (∀ b, b ≠ a → record st' b = record st b).
Proof.
  intros Hwf Ha st'. split; [|split].
  - unfold st'. rewrite record_registerServer_eq_wf by done.
    by rewrite record_None_absent.
  - unfold st'. rewrite (registerServer_absent _ _ _ Ha). simpl.
    by apply map_size_insert_None.
  - intros b Hne. by apply record_registerServer_ne.
Qed.

Lemma registerServer_new_witness :
  wf st_a
  ∧ servers st_a !! "b" = None
  ∧ record (registerServer 5 "b" st_a) "b"
    = Some (mkServerInfo "b" 5 "Scanning..." "" 0 0)
  ∧ size (servers (registerServer 5 "b" st_a)) = S (size (servers st_a)).
Proof.
  assert (servers st_a !! "b" = None) as Hb by (vm_compute; reflexivity).
  split; [exact wf_st_a|]. split; [exact Hb|].
  pose proof (registerServer_new 5 "b" st_a wf_st_a Hb) as (H1 & H2 & _).
  split; [exact H1 | exact H2].
Defined.

(** X6. A heartbeat of an address that has a record sets its [LastSeen]
    and nothing else: the name, map and counts a status query wrote are
    kept, no entry is added, and the other records stay as they are. *)
Theorem registerServer_known (now : Z) (a : string) (st : State) (r : ServerInfo) :
  wf st → record st a = Some r →
  let st' := registerServer now a st in
  record st' a
  = Some (mkServerInfo (Address r) now (Name r) (Map r) (Players r) (MaxPlayers r))
  ∧ servers st' = servers st
  ∧ (∀ b, b ≠ a → record st' b = record st b).
Proof.
  intros Hwf Hr st'. split; [|split].
  - unfold st'. by rewrite record_registerServer_eq_wf, Hr.
  - apply record_Some in Hr as (s & Hs & _).
    unfold st'. by rewrite (registerServer_present _ _ _ _ Hs).
  - intros b Hne. by apply record_registerServer_ne.
Qed.

Lemma registerServer_known_witness :
  let st := writeBack "a" (mkStatus "Alpha" "de_dust2" 16 32) st_a in
  wf st
  ∧ record st "a" = Some (mkServerInfo "a" 1 "Alpha" "de_dust2" 16 32)
  ∧ record (registerServer 9 "a" st) "a"
    = Some (mkServerInfo "a" 9 "Alpha" "de_dust2" 16 32).
Proof.
  intros st.
  assert (wf st) as Hwf by apply wf_writeBack, wf_st_a.
  assert (record st "a" = Some (mkServerInfo "a" 1 "Alpha" "de_dust2" 16 32))
    as Hr by (vm_compute; reflexivity).
  split; [exact Hwf|]. split; [exact Hr|].
  exact (proj1 (registerServer_known 9 "a" st _ Hwf Hr)).
Defined.

(** X10. The queries of one cycle may end in any order: as long as
    nothing else happens in between, the registry they leave is the
    same for every order in which their write-backs take place. *)
Theorem runQueries_any_order
    (answers : string → Exchange) (finished1 finished2 : list string) (st : State) :
  wf st → finished1 ≡ₚ finished2 →
  runQueries answers finished1 st = runQueries answers finished2 st.
Proof.
  intros Hwf Hperm. revert st Hwf. unfold runQueries.
  induction Hperm as [|a l1 l2 _ IH|a b l|l1 l2 l3 _ IH1 _ IH2]; intros st Hwf.
  - done.
  - simpl. apply IH. by apply wf_queryServerDetails.
  - simpl. destruct (decide (a = b)) as [->|Hne]; [done|].
    by rewrite (queryServerDetails_commute a b).
  - by rewrite IH1, IH2.
Qed.

Lemma runQueries_any_order_witness :
  let answers := λ a : string,
    if bool_decide (a = "a"%string) then Datagram alpha_response else ReadFailed in
  wf st_ab
  ∧ ["a"; "b"]%string ≡ₚ ["b"; "a"]%string
  ∧ runQueries answers ["a"; "b"]%string st_ab
    = runQueries answers ["b"; "a"]%string st_ab.
Proof.
  intros answers.
  assert (["a"; "b"]%string ≡ₚ ["b"; "a"]%string) as Hperm by apply perm_swap.
  split; [exact wf_st_ab|]. split; [exact Hperm|].
  exact (runQueries_any_order answers _ _ st_ab wf_st_ab Hperm).
Defined.

(** X11. Of two write-backs for the same address the later one wins: the
    record ends with the values of the later response only. *)
Theorem writeBack_last_wins (a : string) (f g : Status) (st : State) :
  writeBack a f (writeBack a g st) = writeBack a f st.
Proof.
  destruct (servers st !! a) as [s|] eqn:Ha.
  - rewrite (writeBack_present _ g _ _ Ha), (writeBack_present _ f _ _ Ha).
    unfold writeBack. simpl. rewrite Ha. f_equal.
    rewrite alter_alter_eq. apply alter_ext. intros r _. reflexivity.
  - by rewrite (writeBack_absent a g st Ha).
Qed.

(** X12. A heartbeat, of any address, and the write-back for an address
    that has a record can take place in either order: the registry ends
    the same. *)
Theorem registerServer_writeBack_commute
    (now : Z) (a b : string) (f : Status) (st : State) :
  wf st → is_Some (servers st !! a) →
  registerServer now b (writeBack a f st)
  = writeBack a f (registerServer now b st).
Proof.
  intros Hwf [sa Ha]. rewrite (writeBack_present _ _ _ _ Ha).
  destruct (Hwf a sa Ha) as (ra & Hra & _).
  destruct (servers st !! b) as [sb|] eqn:Hb.
  - rewrite (registerServer_present _ _ st _ Hb).
    unfold registerServer, writeBack. simpl. rewrite Ha, Hb. f_equal.
    destruct (decide (sa = sb)) as [->|Hne].
    + rewrite !alter_alter_eq. apply alter_ext. intros r _. reflexivity.
    + by apply alter_alter_ne.
  - rewrite (registerServer_absent _ _ st Hb).
    unfold registerServer, writeBack. simpl. rewrite Hb.
    assert (a ≠ b) as Hab by congruence.
    rewrite lookup_insert_ne by done. rewrite Ha.
    assert (alloc (alter (set_Status f) sa (heap st)) = alloc (heap st)) as ->.
    { unfold alloc. f_equal. apply leibniz_equiv, dom_alter. }
    f_equal. rewrite alter_insert_ne; [done|].
    intros ->. by rewrite alloc_fresh in Hra.
Qed.

Lemma registerServer_writeBack_commute_witness :
  let f := mkStatus "Alpha" "de_dust2" 16 32 in
  wf st_a
  ∧ is_Some (servers st_a !! "a")
  ∧ registerServer 5 "b" (writeBack "a" f st_a)
    = writeBack "a" f (registerServer 5 "b" st_a).
Proof.
  intros f.
  assert (is_Some (servers st_a !! "a")) as Ha by (vm_compute; eauto).
  split; [exact wf_st_a|]. split; [exact Ha|].
  exact (registerServer_writeBack_commute 5 "a" "b" f st_a wf_st_a Ha).
Defined.

(** ** The heartbeat loop *)

Section heartbeats.

Implicit Types (st : State) (reads : list (Z * UDPRead)).

Lemma senders_cons (tr : Z * UDPRead) reads :
  senders (tr :: reads) = senders [tr] ++ senders reads.
Proof. unfold senders. simpl. by rewrite app_nil_r. Qed.

(** A turn of the loop either leaves the registry alone (read error,
    empty datagram) or is one [registerServer] for the sender. *)
Lemma startUDPServer_turn_cases (now : Z) (rd : UDPRead) st :
  (senders [(now, rd)] = [] ∧ startUDPServer_turn now rd st = st)
  ∨ (∃ a, senders [(now, rd)] = [a]
          ∧ startUDPServer_turn now rd st = registerServer now a st).
Proof.
  destruct rd as [|[|x payload] a]; [by left..|].
  right. exists a. split; [done|]. unfold startUDPServer_turn.
  rewrite bool_decide_eq_true_2; [done|].
  rewrite length_take. unfold bufSize. simpl length. lia.
Qed.

End heartbeats.

(** X7. After any number of turns of the heartbeat loop, with nothing
    else in between, the registered addresses are those that were
    registered before and the senders of the datagrams that had at least
    one byte, whatever the bytes were; read errors and empty datagrams
    change nothing, and the record of an address that sent nothing is
    as it was. *)
Theorem startUDPServer_loop_registers (reads : list (Z * UDPRead)) (st : State) :
  wf st →
  let st' := startUDPServer_loop reads st in
  wf st'
  ∧ dom (servers st') = dom (servers st) ∪ list_to_set (senders reads)
  ∧ (∀ a, a ∉ senders reads → record st' a = record st a).
Proof.
  revert st. induction reads as [|[now rd] reads IH]; intros st Hwf st'.
  - split; [done|]. split; [|done].
    unfold st'. simpl. by rewrite (right_id_L ∅ (∪)).
  - unfold st', startUDPServer_loop. cbn [foldl fst snd].
    rewrite senders_cons.
    destruct (startUDPServer_turn_cases now rd st) as [[-> ->]|(a & -> & ->)].
    + by apply IH.
    + destruct (IH (registerServer now a st)) as (IH1 & IH2 & IH3);
        [by apply wf_registerServer|].
      split; [exact IH1|]. split.
      * unfold startUDPServer_loop in IH2. rewrite IH2, dom_registerServer.
        simpl. by rewrite (comm_L (∪) {[a]}), <- (assoc_L (∪)).
      * intros b Hb. apply not_elem_of_cons in Hb as [Hne Hb].
        unfold startUDPServer_loop in IH3. rewrite IH3 by done.
        by apply record_registerServer_ne.
Qed.

Lemma startUDPServer_loop_registers_witness :
  let reads := [(7, Packet [x71] "b"); (8, ReadError); (9, Packet [] "c")]%string in
  wf st_a
  ∧ dom (servers (startUDPServer_loop reads st_a))
    = dom (servers st_a) ∪ list_to_set (senders reads).
Proof.
  intros reads. split; [exact wf_st_a|].
  exact (proj1 (proj2 (startUDPServer_loop_registers reads st_a wf_st_a))).
Defined.

(** ** The sweep, once more *)

Section sweep_more.

Context (T : Z) (now : string → Z).
Implicit Types (st : State) (kvs : list (string * ptr)).

Lemma record_sweep kvs st a :
  wf st → range_order st kvs → minDuration ≤ T < maxDuration →
  record (sweep T now kvs st).1 a
  = r ← record st a;
    if bool_decide (LastSeen r < now a - T) then None else Some r.
Proof.
  intros Hwf Hkvs HT. unfold record. rewrite servers_sweep, heap_sweep.
  destruct (servers st !! a) as [s|] eqn:Hs; [|by case_decide].
  destruct (Hwf a s Hs) as (r & Hr & _). simpl. rewrite Hr. simpl.
  pose proof (stale_entry T now st kvs a s r Hkvs Hs Hr HT) as Hiff.
  case_decide; case_bool_decide; simpl; try done; tauto.
Qed.

Lemma staleThreshold_range : minDuration ≤ staleThreshold < maxDuration.
Proof. split; [vm_compute; intros H; discriminate H | reflexivity]. Qed.

End sweep_more.

Lemma filter_Forall_iff {A} (P Q : A → Prop)
    `{∀ x, Decision (P x)} `{∀ x, Decision (Q x)} (l : list A) :
  Forall (λ x, P x ↔ Q x) l → filter P l = filter Q l.
Proof.
  induction 1 as [|x l Hx _ IH]; [done|].
  rewrite !filter_cons, IH.
  destruct (decide (P x)), (decide (Q x)); try done; tauto.
Qed.

(** X8. Two sweeps of one registry may range over the map in different
    orders and read the clock at different moments. As long as every
    entry gets the same verdict from the test of line 167 under the
    readings of the one and of the other (no record grows older than
    the threshold between them), they leave the same registry and put
    the same addresses in [checkList], in possibly another order. *)
Theorem sweep_any_order
    (T : Z) (now1 now2 : string → Z) (kvs1 kvs2 : list (string * ptr)) (st : State) :
  kvs1 ≡ₚ kvs2 →
  Forall (λ kv, stale T now1 (heap st) kv ↔ stale T now2 (heap st) kv) kvs1 →
  (sweep T now1 kvs1 st).1 = (sweep T now2 kvs2 st).1
  ∧ (sweep T now1 kvs1 st).2 ≡ₚ (sweep T now2 kvs2 st).2.
Proof.
  intros Hperm Hsame.
  assert (filter (stale T now1 (heap st)) kvs1
          = filter (stale T now2 (heap st)) kvs1) as Hstale
    by (by apply filter_Forall_iff).
  assert (filter (λ kv, ¬ stale T now1 (heap st) kv) kvs1
          = filter (λ kv, ¬ stale T now2 (heap st) kv) kvs1) as Hfresh.
  { apply filter_Forall_iff. eapply Forall_impl; [exact Hsame|]. simpl. tauto. }
  split.
  - unfold sweep. rewrite !sweep_fold. cbn [fst]. f_equal.
    apply map_eq. intros a. rewrite !lookup_foldl_delete.
    assert (a ∈ (filter (stale T now1 (heap st)) kvs1).*1
            ↔ a ∈ (filter (stale T now2 (heap st)) kvs2).*1) as Hiff
      by (by rewrite Hstale, Hperm).
    repeat case_decide; try done; tauto.
  - rewrite !checkList_sweep. by rewrite Hfresh, Hperm.
Qed.

Lemma sweep_any_order_witness :
  let now1 := λ _ : string, 2 + 5 * Minute in
  let now2 := λ a : string,
    if bool_decide (a = "a"%string) then 4 + 5 * Minute else 3 + 5 * Minute in
  let kvs := map_to_list (servers st_ab) in
  kvs ≡ₚ reverse kvs
  ∧ Forall (λ kv, stale staleThreshold now1 (heap st_ab) kv
                  ↔ stale staleThreshold now2 (heap st_ab) kv) kvs
  ∧ (sweep staleThreshold now1 kvs st_ab).1
    = (sweep staleThreshold now2 (reverse kvs) st_ab).1
  ∧ (sweep staleThreshold now1 kvs st_ab).2
    ≡ₚ (sweep staleThreshold now2 (reverse kvs) st_ab).2.
Proof.
  intros now1 now2 kvs.
  assert (kvs ≡ₚ reverse kvs) as Hperm by (symmetry; apply reverse_Permutation).
  assert (Forall (λ kv, stale staleThreshold now1 (heap st_ab) kv
                        ↔ stale staleThreshold now2 (heap st_ab) kv) kvs) as Hsame
    by (apply (bool_decide_unpack _); vm_compute; exact I).
  split; [exact Hperm|]. split; [exact Hsame|].
  exact (sweep_any_order staleThreshold now1 now2 kvs (reverse kvs) st_ab Hperm Hsame).
Defined.

(** X9. A server whose heartbeat came at time [t] is kept, with its
    [LastSeen] at [t], and queried by every sweep that examines it no
    later than five minutes after [t]; a sweep that examines it later
    than that removes it and does not query it. *)
Theorem heartbeat_then_tick
    (t : Z) (a : string) (now : string → Z)
    (kvs : list (string * ptr)) (st : State) :
  wf st → range_order (registerServer t a st) kvs →
  let res := startCleanerAndQuery_tick now kvs (registerServer t a st) in
  (now a ≤ t + 5 * Minute →
     a ∈ res.2 ∧ ∃ r, record res.1 a = Some r ∧ LastSeen r = t)
  ∧ (t + 5 * Minute < now a → (a ∉ res.2) ∧ record res.1 a = None).
Proof.
  intros Hwf Hkvs res.
  assert (wf (registerServer t a st)) as Hwf' by by apply wf_registerServer.
  pose proof (record_registerServer_eq_wf t a st Hwf) as Hrec.
  set (r0 := match record st a with
             | Some r => set_LastSeen t r
             | None => mkServerInfo a t "Scanning..." "" 0 0
             end) in Hrec.
  assert (LastSeen r0 = t) as Ht by (unfold r0; by destruct (record st a)).
  pose proof Hrec as (s & Hs & Hr)%record_Some.
  pose proof (checkList_entry staleThreshold now _ kvs a s r0 Hkvs Hs Hr
                staleThreshold_range) as Hlist.
  pose proof (record_sweep staleThreshold now kvs _ a Hwf' Hkvs
                staleThreshold_range) as Hsw.
  rewrite Hrec in Hsw. simpl in Hsw. rewrite Ht in *.
  unfold res, startCleanerAndQuery_tick. unfold staleThreshold in *.
  split; intros Hnow.
  - split; [apply Hlist; lia|]. exists r0. split; [|done].
    rewrite Hsw. by rewrite bool_decide_eq_false_2 by lia.
  - split; [rewrite Hlist; lia|].
    rewrite Hsw. by rewrite bool_decide_eq_true_2 by lia.
Qed.

Lemma heartbeat_then_tick_witness :
  let now := λ _ : string, 5 + 5 * Minute in
  let kvs := map_to_list (servers st_ab) in
  let res := startCleanerAndQuery_tick now kvs st_ab in
  wf st_a
  ∧ range_order st_ab kvs
  ∧ now "b"%string ≤ 5 + 5 * Minute
  ∧ "b"%string ∈ res.2.
Proof.
  intros now kvs res.
  assert (range_order st_ab kvs) as Hkvs by (unfold range_order; reflexivity).
  assert (now "b"%string ≤ 5 + 5 * Minute) as Hnow by (unfold now; lia).
  split; [exact wf_st_a|]. split; [exact Hkvs|]. split; [exact Hnow|].
  exact (proj1 (proj1 (heartbeat_then_tick 5 "b" now kvs st_a wf_st_a Hkvs) Hnow)).
Defined.

(** ** Steps of the registry *)

Section steps_more.

Implicit Types (st : State) (a b : string) (r : ServerInfo).

Lemma servers_queryServerDetails a x st :
  servers (queryServerDetails a x st) = servers st.
Proof.
  destruct (queryServerDetails_cases a x st) as [->|(f & _ & ->)];
    [done | apply servers_writeBack].
Qed.

Lemma plain_set_LastSeen t r : plain r → plain (set_LastSeen t r).
Proof. by intros H. Qed.

Lemma plain_placeholder a t : plain (mkServerInfo a t "Scanning..." "" 0 0).
Proof.
  split; [|split; [|split]]; simpl; try lia.
  - apply (bool_decide_unpack _). vm_compute. exact I.
  - apply not_elem_of_nil.
Qed.

Lemma plain_set_Status x f r : decode x = Parsed f → plain (set_Status f r).
Proof. intros Hx. by apply decode_Parsed in Hx. Qed.

End steps_more.

(** X13. Only a heartbeat adds an address to the registry, and it adds
    its own; only the sweep removes addresses; a status query, whatever
    the answer, neither adds nor removes one. *)
Theorem step_addresses (st st' : State) (c c' : Z) (e : Event) :
  step (st, c) e (st', c') →
  match e with
  | Heartbeat a => dom (servers st') = {[a]} ∪ dom (servers st)
  | Tick _ _ => dom (servers st') ⊆ dom (servers st)
  | Query _ _ => servers st' = servers st
  end.
Proof.
  inversion 1; subst.
  - apply dom_registerServer.
  - intros a [s Hs]%elem_of_dom. apply elem_of_dom.
    unfold startCleanerAndQuery_tick in Hs. rewrite servers_sweep in Hs.
    case_decide; [done | eauto].
  - apply servers_queryServerDetails.
Qed.

Lemma step_addresses_witness :
  step (st_a, 1) (Heartbeat "b") (st_ab, 5)
  ∧ dom (servers st_ab) = {["b"%string]} ∪ dom (servers st_a).
Proof.
  assert (step (st_a, 1) (Heartbeat "b") (st_ab, 5)) as Hstep
    by (apply (step_heartbeat st_a 1 5 "b"); lia).
  split; [exact Hstep|].
  exact (step_addresses st_a st_ab 1 5 (Heartbeat "b") Hstep).
Defined.

(** X14. In every state the program can reach, the name and the map of
    every record contain no zero byte, and its two counts lie between 0
    and 255. *)
Theorem reachable_plain (σ : State * Z) :
  reachable σ → ∀ a r, record σ.1 a = Some r → plain r.
Proof.
  induction 1 as [c|σ e σ' Hσ IH Hstep].
  - intros a r. by rewrite record_None_absent.
  - pose proof (proj1 (reachable_inv σ Hσ)) as Hwf.
    destruct σ as [st c], σ' as [st' c']. simpl in *. intros b r' Hr'.
    inversion Hstep; subst.
    + destruct (decide (addr = b)) as [->|Hne].
      * rewrite record_registerServer_eq_wf in Hr' by done.
        injection Hr' as <-. destruct (record st b) as [r|] eqn:Hr.
        -- apply plain_set_LastSeen. by eapply IH.
        -- apply plain_placeholder.
      * rewrite record_registerServer_ne in Hr' by done. by eapply IH.
    + apply record_sweep_Some in Hr'. by eapply IH.
    + destruct (queryServerDetails_cases addr x st) as [Heq|(f & Hx & Heq)];
        rewrite Heq in Hr'; [by eapply IH|].
      destruct (decide (addr = b)) as [->|Hne].
      * rewrite record_writeBack_eq in Hr'.
        destruct (record st b) as [r|]; [|done].
        injection Hr' as <-. by eapply plain_set_Status.
      * rewrite record_writeBack_ne in Hr' by done. by eapply IH.
Qed.

Lemma reachable_plain_witness :
  reachable (st_ab, 5)
  ∧ ∀ a r, record st_ab a = Some r → plain r.
Proof.
  split; [exact reachable_st_ab|].
  exact (reachable_plain (st_ab, 5) reachable_st_ab).
Defined.

(** X15. When no two records have the same [LastSeen], the list of
    [handleWeb] does not depend on the order in which the map is ranged
    over. *)
Theorem handleWeb_any_order (kvs1 kvs2 : list (string * ptr)) (st : State) :
  wf st → range_order st kvs1 → range_order st kvs2 →
  (∀ a b ra rb,
     record st a = Some ra → record st b = Some rb →
     LastSeen ra = LastSeen rb → a = b) →
  handleWeb kvs1 st = handleWeb kvs2 st.
Proof.
  intros Hwf Hk1 Hk2 Hdistinct.
  assert (Servers (handleWeb kvs1 st) = Servers (handleWeb kvs2 st)) as Heq.
  { apply (StronglySorted_unique_strong
             (λ i j, LastSeen (deref (heap st) j) ≤ LastSeen (deref (heap st) i))).
    - intros s1 s2 Hs1 Hs2 H12 H21.
      rewrite (Servers_handleWeb kvs1 st Hk1) in Hs1.
      rewrite (Servers_handleWeb kvs2 st Hk2) in Hs2.
      apply list_elem_of_fmap in Hs1 as ([a1 s1'] & -> & Ha1%elem_of_map_to_list).
      apply list_elem_of_fmap in Hs2 as ([a2 s2'] & -> & Ha2%elem_of_map_to_list).
      simpl in *.
      destruct (Hwf a1 s1' Ha1) as (r1 & Hr1 & _).
      destruct (Hwf a2 s2' Ha2) as (r2 & Hr2 & _).
      unfold deref in H12, H21. rewrite Hr1, Hr2 in H12, H21. simpl in *.
      assert (a1 = a2) as ->.
      { apply (Hdistinct a1 a2 r1 r2); [apply record_Some; eauto..|lia]. }
      congruence.
    - apply (sort_Slice_sorted (λ s, LastSeen (deref (heap st) s))).
    - apply (sort_Slice_sorted (λ s, LastSeen (deref (heap st) s))).
    - by rewrite (Servers_handleWeb kvs1 st Hk1), (Servers_handleWeb kvs2 st Hk2). }
  unfold handleWeb in *. simpl in Heq. by rewrite Heq.
Qed.

Lemma handleWeb_any_order_witness :
  let kvs := map_to_list (servers st_ab) in
  wf st_ab
  ∧ range_order st_ab kvs
  ∧ range_order st_ab (reverse kvs)
  ∧ reverse kvs ≠ kvs
  ∧ (∀ a b ra rb,
       record st_ab a = Some ra → record st_ab b = Some rb →
       LastSeen ra = LastSeen rb → a = b)
  ∧ handleWeb kvs st_ab = handleWeb (reverse kvs) st_ab.
Proof.
  intros kvs.
  assert (range_order st_ab kvs) as Hk1 by (unfold range_order; reflexivity).
  assert (range_order st_ab (reverse kvs)) as Hk2
    by (unfold range_order; apply reverse_Permutation).
  assert (reverse kvs ≠ kvs) as Hrev by (vm_compute; discriminate).
  assert (∀ c rc, record st_ab c = Some rc →
                  (c = "a"%string ∧ LastSeen rc = 1)
                  ∨ (c = "b"%string ∧ LastSeen rc = 5)) as Honly.
  { intros c rc Hc.
    destruct (decide (c = "a"%string)) as [->|Ha].
    { left. split; [done|]. vm_compute in Hc. by injection Hc as <-. }
    destruct (decide (c = "b"%string)) as [->|Hb].
    { right. split; [done|]. vm_compute in Hc. by injection Hc as <-. }
    exfalso. unfold st_ab, st_a in Hc.
    rewrite record_registerServer_ne in Hc by (by apply wf_st_a || done).
    rewrite record_registerServer_ne in Hc by (by apply wf_init || done).
    by rewrite record_None_absent in Hc. }
  assert (∀ a b ra rb,
            record st_ab a = Some ra → record st_ab b = Some rb →
            LastSeen ra = LastSeen rb → a = b) as Hdistinct.
  { intros a b ra rb Ha Hb Heq.
    destruct (Honly a ra Ha) as [[-> Hta]|[-> Hta]];
      destruct (Honly b rb Hb) as [[-> Htb]|[-> Htb]]; try done; lia. }
  split; [exact wf_st_ab|]. split; [exact Hk1|]. split; [exact Hk2|].
  split; [exact Hrev|]. split; [exact Hdistinct|].
  exact (handleWeb_any_order kvs (reverse kvs) st_ab wf_st_ab Hk1 Hk2 Hdistinct).
Defined.

(** X16. A query that ends after the sweep has removed its address
    changes nothing: whatever the answer, the record is not brought
    back. *)
Theorem evicted_stays_evicted
    (a : string) (x : Exchange) (now : string → Z)
    (kvs : list (string * ptr)) (st : State) (r : ServerInfo) :
  wf st → range_order st kvs →
  record st a = Some r → LastSeen r < now a - 5 * Minute →
  let st' := (startCleanerAndQuery_tick now kvs st).1 in
  record st' a = None ∧ queryServerDetails a x st' = st'.
Proof.
  intros Hwf Hkvs Hr Hold st'.
  pose proof Hr as (s & Hs & Hrs)%record_Some.
  assert (servers st' !! a = None) as Hgone.
  { unfold st', startCleanerAndQuery_tick. rewrite servers_sweep.
    rewrite decide_True; [done|].
    apply (stale_entry staleThreshold now st kvs a s r Hkvs Hs Hrs
             staleThreshold_range).
    exact Hold. }
  split; [by apply record_None_absent|].
  destruct (queryServerDetails_cases a x st') as [->|(f & _ & ->)];
    [done | by apply writeBack_absent].
Qed.

Lemma evicted_stays_evicted_witness :
  let now := λ _ : string, 2 + 5 * Minute in
  let kvs := map_to_list (servers st_ab) in
  let st' := (startCleanerAndQuery_tick now kvs st_ab).1 in
  wf st_ab
  ∧ range_order st_ab kvs
  ∧ record st_ab "a" = Some (mkServerInfo "a" 1 "Scanning..." "" 0 0)
  ∧ 1 < now "a"%string - 5 * Minute
  ∧ queryServerDetails "a" (Datagram alpha_response) st' = st'.
Proof.
  intros now kvs st'.
  assert (range_order st_ab kvs) as Hkvs by (unfold range_order; reflexivity).
  assert (record st_ab "a" = Some (mkServerInfo "a" 1 "Scanning..." "" 0 0))
    as Hr by (vm_compute; reflexivity).
  assert (1 < now "a"%string - 5 * Minute) as Hold by (unfold now; lia).
  split; [exact wf_st_ab|]. split; [exact Hkvs|]. split; [exact Hr|].
  split; [exact Hold|].
  exact (proj2 (evicted_stays_evicted "a" (Datagram alpha_response) now kvs
                  st_ab _ wf_st_ab Hkvs Hr Hold)).
Defined.

Lemma decode_padded_witness :
  (5 ≤ length cut_response ≤ 1391)%nat
  ∧ ∃ f, decode (Datagram cut_response) = Parsed f.
Proof.
  assert (5 ≤ length cut_response ≤ 1391)%nat as Hlen by (vm_compute; lia).
  split; [exact Hlen|]. exact (decode_padded cut_response Hlen).
Defined.

Lemma rows_handleWeb_sorted (kvs : list (string * ptr)) (st : State) :
  StronglySorted (λ r1 r2, LastSeen r2 ≤ LastSeen r1) (rows st (handleWeb kvs st)).
Proof.
  unfold rows, handleWeb. simpl.
  eapply StronglySorted_fmap;
    [|apply (sort_Slice_sorted (λ s, LastSeen (deref (heap st) s)))].
  intros s1 s2 H. exact H.
Qed.

(** X17. A server whose heartbeat comes strictly later than everything
    the registry has seen is the first row of the next page, with the
    time of that heartbeat, and no other row has its address. *)
Theorem heartbeat_listed_first
    (t c : Z) (a : string) (kvs : list (string * ptr)) (st : State) :
  reachable (st, c) → c < t →
  range_order (registerServer t a st) kvs →
  ∃ r rest,
    rows (registerServer t a st) (handleWeb kvs (registerServer t a st)) = r :: rest
    ∧ Address r = a ∧ LastSeen r = t
    ∧ ∀ r', r' ∈ rest → Address r' ≠ a.
Proof.
  intros [Hwf Hseen]%reachable_inv Hlate Hkvs. simpl in *.
  set (st1 := registerServer t a st) in *.
  assert (wf st1) as Hwf1 by by apply wf_registerServer.
  assert (∃ ra, record st1 a = Some ra ∧ LastSeen ra = t) as (ra & Hra & Hta).
  { unfold st1. rewrite record_registerServer_eq_wf by done.
    eexists. split; [done|]. by destruct (record st a). }
  pose proof (rows_handleWeb_sorted kvs st1) as Hsorted.
  pose proof (rows_handleWeb_NoDup kvs st1 Hwf1 Hkvs) as Hnodup.
  assert (ra ∈ rows st1 (handleWeb kvs st1)) as Hin
    by (apply rows_handleWeb_elem; eauto).
  destruct (rows st1 (handleWeb kvs st1)) as [|r rest] eqn:Hrows;
    [by apply elem_of_nil in Hin|].
  assert (r = ra) as ->.
  { assert (r ∈ rows st1 (handleWeb kvs st1)) as Hr by (rewrite Hrows; by left).
    apply rows_handleWeb_elem in Hr as [b Hb]; [|done..].
    destruct (decide (a = b)) as [<-|Hne]; [congruence|].
    unfold st1 in Hb. rewrite record_registerServer_ne in Hb by done.
    apply Hseen in Hb.
    apply elem_of_cons in Hin as [->|Hin]; [done|].
    apply StronglySorted_inv in Hsorted as [_ Hall].
    rewrite Forall_forall in Hall. apply Hall in Hin. lia. }
  exists ra, rest. split; [done|]. split; [by eapply wf_record_Address|].
  split; [done|]. intros r' Hr' Heq.
  rewrite fmap_cons in Hnodup. apply NoDup_cons in Hnodup as [Hnot _].
  apply Hnot. apply list_elem_of_fmap. exists r'. split; [|done].
  rewrite Heq. by eapply wf_record_Address.
Qed.

Lemma heartbeat_listed_first_witness :
  let st1 := registerServer 9 "a" st_ab in
  let kvs := map_to_list (servers st1) in
  reachable (st_ab, 5)
  ∧ 5 < 9
  ∧ range_order st1 kvs
  ∧ ∃ r rest, rows st1 (handleWeb kvs st1) = r :: rest
              ∧ Address r = "a"%string ∧ LastSeen r = 9
              ∧ ∀ r', r' ∈ rest → Address r' ≠ "a"%string.
Proof.
  intros st1 kvs.
  assert (5 < 9) as Hlate by lia.
  assert (range_order st1 kvs) as Hkvs by (unfold range_order; reflexivity).
  split; [exact reachable_st_ab|]. split; [exact Hlate|]. split; [exact Hkvs|].
  exact (heartbeat_listed_first 9 5 "a" kvs st_ab reachable_st_ab Hlate Hkvs).
Defined.

(** ** [handleWeb] under the read lock *)

Section read_lock.

Implicit Types (st : State) (σ : Sys).

Lemma Count_handleWeb (kvs : list (string * ptr)) st :
  range_order st kvs → Count (handleWeb kvs st) = Z.of_nat (size (servers st)).
Proof.
  intros Hkvs. unfold handleWeb. simpl. f_equal.
  rewrite sort_Slice_Permutation, length_fmap, Hkvs. apply length_map_to_list.
Qed.

(** While the request holds the read lock no step changes the registry:
    the writers are not granted [Lock]. *)
Lemma sys_step_frozen σ σ' :
  sys_step σ σ' → holds_RLock (sys_web σ) = true → sys_reg σ' = sys_reg σ.
Proof. destruct 1; simpl; congruence. Qed.

Lemma sys_step_web_inv st σ σ' :
  sys_step σ σ' → web_inv st σ → web_inv st σ'.
Proof.
  unfold web_inv. destruct 1 as [st0 c e st' c' pc Hstep Hpc| | | |
    st0 c n kvs Hkvs|st0 c n list sorted|st0 c n d s todo out|st0 c n d out];
    simpl; try done.
  - destruct pc; simpl in *; done.
  - intros <-. eauto.
  - intros (<- & kvs & Hkvs & ->). split; [done|]. exists kvs.
    split; [done|]. split; [done|]. done.
  - intros (<- & kvs & Hkvs & -> & Hout). split; [done|]. exists kvs.
    split; [done|]. split; [done|]. rewrite <- Hout, <- app_assoc. done.
  - intros (<- & kvs & Hkvs & -> & Hout). exists kvs.
    split; [done|]. split; [done|]. by rewrite <- Hout, app_nil_r.
Qed.

Lemma rtc_web_inv st σ σ' :
  rtc sys_step σ σ' → web_inv st σ → web_inv st σ'.
Proof. induction 1; eauto using sys_step_web_inv. Qed.

(** The template reads the rest of the list. *)
Lemma web_reads st c n d (todo : list ptr) (out : list ServerInfo) :
  rtc sys_step (mkSys st c n (WebReading d todo out))
               (mkSys st c n (WebReading d [] (out ++ (deref (heap st) <$> todo)))).
Proof.
  revert out. induction todo as [|s todo IH]; intros out.
  - rewrite app_nil_r. apply rtc_refl.
  - eapply rtc_l; [apply sys_web_read|].
    replace (out ++ (deref (heap st) <$> s :: todo))
      with ((out ++ [deref (heap st) s]) ++ (deref (heap st) <$> todo))
      by (by rewrite <- app_assoc).
    apply IH.
Qed.

(** A request that holds the read lock runs to its end, whatever else
    is waiting. *)
Lemma web_runs st c n (kvs : list (string * ptr)) :
  range_order st kvs →
  rtc sys_step (mkSys st c n WebLocked)
               (mkSys st c n (WebDone (handleWeb kvs st) (rows st (handleWeb kvs st)))).
Proof.
  intros Hkvs.
  eapply rtc_l; [by apply sys_web_range|].
  eapply rtc_l; [apply sys_web_sort|].
  eapply rtc_trans; [apply web_reads|].
  apply rtc_once. apply sys_web_RUnlock.
Qed.

End read_lock.

(** C2, as the program has it. [handleWeb] takes the read lock, and
    until it releases it no heartbeat, sweep or write-back changes the
    registry. What it hands to the template is a list of the registry's
    own pointers, one per record, ordered by [LastSeen], latest first,
    with [Count] the number of records; the rows it has read through
    them when it returns are the records of the one state in which the
    lock was taken. *)
Theorem handleWeb_under_RLock (σL σ : Sys) :
  sys_web σL = WebLocked → wf (sys_reg σL) → rtc sys_step σL σ →
  let st := sys_reg σL in
  (holds_RLock (sys_web σ) = true → sys_reg σ = st)
  ∧ ∀ d out,
      sys_web σ = WebDone d out →
      ∃ kvs, range_order st kvs ∧ d = handleWeb kvs st ∧ out = rows st d
             ∧ Servers d ≡ₚ (map_to_list (servers st)).*2
             ∧ Count d = Z.of_nat (size (servers st))
             ∧ (∀ r, r ∈ out ↔ ∃ a, record st a = Some r)
             ∧ NoDup (Address <$> out)
             ∧ StronglySorted (λ r1 r2, LastSeen r2 ≤ LastSeen r1) out.
Proof.
  intros HL Hwf Hrun st.
  assert (web_inv st σ) as Hinv.
  { eapply rtc_web_inv; [exact Hrun|]. unfold web_inv. by rewrite HL. }
  unfold web_inv in Hinv. split.
  - destruct (sys_web σ); simpl; try done; intros _; by destruct Hinv.
  - intros d out Hdone. rewrite Hdone in Hinv.
    destruct Hinv as (kvs & Hkvs & -> & ->). exists kvs.
    split; [done|]. split; [done|]. split; [done|].
    split; [by apply Servers_handleWeb|].
    split; [by apply Count_handleWeb|].
    split; [intros r; by apply rows_handleWeb_elem|].
    split; [by apply rows_handleWeb_NoDup|].
    apply rows_handleWeb_sorted.
Qed.

Lemma handleWeb_under_RLock_witness :
  let kvs := map_to_list (servers st_ab) in
  let d := handleWeb kvs st_ab in
  let σL := mkSys st_ab 5 0 WebLocked in
  let σ := mkSys st_ab 5 0 (WebDone d (rows st_ab d)) in
  sys_web σL = WebLocked
  ∧ wf (sys_reg σL)
  ∧ rtc sys_step σL σ
  ∧ ∃ kvs', range_order st_ab kvs' ∧ d = handleWeb kvs' st_ab
            ∧ rows st_ab d = rows st_ab d
            ∧ Servers d ≡ₚ (map_to_list (servers st_ab)).*2
            ∧ Count d = Z.of_nat (size (servers st_ab))
            ∧ (∀ r, r ∈ rows st_ab d ↔ ∃ a, record st_ab a = Some r)
            ∧ NoDup (Address <$> rows st_ab d)
            ∧ StronglySorted (λ r1 r2, LastSeen r2 ≤ LastSeen r1) (rows st_ab d).
Proof.
  intros kvs d σL σ.
  assert (range_order st_ab kvs) as Hkvs by (unfold range_order; reflexivity).
  assert (rtc sys_step σL σ) as Hrun by (by apply web_runs).
  split; [reflexivity|]. split; [exact wf_st_ab|]. split; [exact Hrun|].
  exact (proj2 (handleWeb_under_RLock σL σ eq_refl wf_st_ab Hrun) d (rows st_ab d) eq_refl).
Defined.

(** C2, as stated, fails: the list is no copy. For the registry with the
    one server ["a"], the entry of the list that [handleWeb] hands to
    the template is the pointer that [manager.servers] holds for
    ["a"]. *)
Lemma handleWeb_list_aliases :
  ¬ no_alias st_a (handleWeb (map_to_list (servers st_a)) st_a).
Proof.
  intros H. apply (H "a"%string 1%positive).
  - vm_compute. reflexivity.
  - assert (Servers (handleWeb (map_to_list (servers st_a)) st_a) = [1%positive])
      as -> by (vm_compute; reflexivity).
    by left.
Qed.
